(** * EchoDaily persistence core: a shallow embedding of
    [src-tauri/src/db/queries.rs] and [src-tauri/src/db/migrations.rs].

    The SQLite database is modelled as an explicit store value.  Each SQL
    statement issued by the Rust code is one function on the store, run
    atomically (SQLite statements are atomic).  The statement functions
    include the effects the engine adds on its own for this schema: the
    three FTS5 synchronisation triggers installed by MIGRATION_005, the
    [ON DELETE CASCADE] of [ai_operations.entry_id] (sqlx opens SQLite
    connections with [foreign_keys = ON]), and the PRIMARY KEY / UNIQUE
    constraints of the tables.  Queries other than migrations run on the
    migrated schema: [db::get_pool] runs [migrations::run] before the pool
    is handed out. *)

From Stdlib Require Import Ascii String List ZArith Bool Lia Permutation.
Import ListNotations.
Local Open Scope string_scope.
Local Open Scope list_scope.
Local Open Scope Z_scope.

(** ** Data model ([models.rs]) *)

Record DiaryEntry := mkEntry {
  id : string;
  entry_date : string;
  content_json : string;
  mood : option string;
  mood_emoji : option string;
  created_at : Z;
  updated_at : Z
}.

(** [AIOperation]; field names carry an [ai_] prefix, since Rocq record
    fields share one name space. *)
Record AIOperation := mkAIOperation {
  ai_id : string;
  ai_entry_id : string;
  ai_op_type : string;
  ai_original_text : string;
  ai_result_text : string;
  ai_provider : string;
  ai_model : string;
  ai_created_at : Z
}.

(** A row of the FTS5 table [entries_fts(entry_id UNINDEXED, content, mood)]. *)
Record FtsRow := mkFtsRow {
  fts_entry_id : string;
  fts_content : string;
  fts_mood : string
}.

Record ExportData := mkExportData {
  version : string;
  exported_at : Z;
  data_entries : list DiaryEntry;
  data_ai_operations : list AIOperation
}.

Record ImportOptions := mkImportOptions {
  overwrite : bool;
  include_ai_operations : bool
}.

(** The database: its schema objects and the rows of its tables.
    [schema_migrations] is [None] while that table does not exist. *)
Record Store := mkStore {
  tables : list string;
  entry_columns : list string;
  indexes : list string;
  triggers : list string;
  schema_migrations : option (list (Z * Z));
  entries : list DiaryEntry;
  ai_operations : list AIOperation;
  entries_fts : list FtsRow;
  app_settings : list (string * string * Z)
}.

Definition set_entries (es : list DiaryEntry) (s : Store) : Store :=
  mkStore (tables s) (entry_columns s) (indexes s) (triggers s)
    (schema_migrations s) es (ai_operations s) (entries_fts s) (app_settings s).

Definition set_fts (f : list FtsRow) (s : Store) : Store :=
  mkStore (tables s) (entry_columns s) (indexes s) (triggers s)
    (schema_migrations s) (entries s) (ai_operations s) f (app_settings s).

Definition set_ai_operations (ops : list AIOperation) (s : Store) : Store :=
  mkStore (tables s) (entry_columns s) (indexes s) (triggers s)
    (schema_migrations s) (entries s) ops (entries_fts s) (app_settings s).

(** ** Errors and the result type ([sqlx::Error] as far as it matters) *)

Inductive DbError :=
  | UniqueViolation (table column : string)
  | ForeignKeyViolation (table : string)
  | DuplicateColumn (column : string)
  | NoSuchTable (table : string).

Inductive result (A : Type) :=
  | Ok (a : A)
  | Err (e : DbError).
Arguments Ok {A} a.
Arguments Err {A} e.

Definition bind {A B} (m : result A) (k : A -> result B) : result B :=
  match m with
  | Ok a => k a
  | Err e => Err e
  end.

Notation "x <- m ;; k" := (bind m (fun x => k))
  (at level 61, m at next level, right associativity).

(** ** MIGRATION_005: the FTS projection and its triggers *)

Definition coalesce (o : option string) (d : string) : string :=
  match o with Some v => v | None => d end.

(** [VALUES (NEW.id, NEW.content_json, COALESCE(NEW.mood, ''))] *)
Definition project (e : DiaryEntry) : FtsRow :=
  mkFtsRow (id e) (content_json e) (coalesce (mood e) "").

(** Trigger [entries_ai] (AFTER INSERT). *)
Definition trg_entries_ai (new : DiaryEntry) (fts : list FtsRow) : list FtsRow :=
  fts ++ [project new].

(** Trigger [entries_ad] (AFTER DELETE):
    [DELETE FROM entries_fts WHERE entry_id = OLD.id]. *)
Definition trg_entries_ad (old : DiaryEntry) (fts : list FtsRow) : list FtsRow :=
  filter (fun r => negb (String.eqb (fts_entry_id r) (id old))) fts.

(** Trigger [entries_au] (AFTER UPDATE): delete by [OLD.id], insert [NEW]. *)
Definition trg_entries_au (old new : DiaryEntry) (fts : list FtsRow) : list FtsRow :=
  trg_entries_ai new (trg_entries_ad old fts).

(** ** Single SQL statements on [entries] and [ai_operations] *)

Definition find_by_date (d : string) (es : list DiaryEntry) : option DiaryEntry :=
  find (fun e => String.eqb (entry_date e) d) es.

Definition find_by_id (x : string) (es : list DiaryEntry) : option DiaryEntry :=
  find (fun e => String.eqb (id e) x) es.

(** [INSERT INTO entries (...) VALUES (...)]: the PRIMARY KEY on [id] and the
    UNIQUE constraint on [entry_date] are checked; the insert trigger fires. *)
Definition insert_entry (e : DiaryEntry) (s : Store) : result Store :=
  if existsb (fun x => String.eqb (id x) (id e)) (entries s)
  then Err (UniqueViolation "entries" "id")
  else if existsb (fun x => String.eqb (entry_date x) (entry_date e)) (entries s)
  then Err (UniqueViolation "entries" "entry_date")
  else Ok (set_fts (trg_entries_ai e (entries_fts s))
             (set_entries (entries s ++ [e]) s)).

(** [UPDATE entries SET ... WHERE p RETURNING *]: every matching row is
    rewritten by [f] and fires [entries_au]; the rewritten rows are returned
    in table order. *)
Fixpoint update_rows (p : DiaryEntry -> bool) (f : DiaryEntry -> DiaryEntry)
    (es : list DiaryEntry) (fts : list FtsRow)
    : list DiaryEntry * list FtsRow * list DiaryEntry :=
  match es with
  | [] => ([], fts, [])
  | e :: rest =>
      if p e then
        let '(es', fts', ret) := update_rows p f rest (trg_entries_au e (f e) fts) in
        (f e :: es', fts', f e :: ret)
      else
        let '(es', fts', ret) := update_rows p f rest fts in
        (e :: es', fts', ret)
  end.

Definition update_entries (p : DiaryEntry -> bool) (f : DiaryEntry -> DiaryEntry)
    (s : Store) : Store * list DiaryEntry :=
  let '(es', fts', ret) := update_rows p f (entries s) (entries_fts s) in
  (set_fts fts' (set_entries es' s), ret).

(** [DELETE FROM entries WHERE p]: every deleted row fires [entries_ad] and
    cascades to the [ai_operations] rows referencing it.  The count is
    [rows_affected()], which in SQLite counts the rows of the statement
    itself, not those removed by triggers or cascades. *)
Fixpoint delete_rows (p : DiaryEntry -> bool) (es : list DiaryEntry)
    (fts : list FtsRow) (ops : list AIOperation)
    : list DiaryEntry * list FtsRow * list AIOperation * nat :=
  match es with
  | [] => ([], fts, ops, 0%nat)
  | e :: rest =>
      if p e then
        let ops1 := filter (fun o => negb (String.eqb (ai_entry_id o) (id e))) ops in
        let '(es', fts', ops', n) := delete_rows p rest (trg_entries_ad e fts) ops1 in
        (es', fts', ops', S n)
      else
        let '(es', fts', ops', n) := delete_rows p rest fts ops in
        (e :: es', fts', ops', n)
  end.

Definition delete_entries (p : DiaryEntry -> bool) (s : Store) : Store * nat :=
  let '(es', fts', ops', n) := delete_rows p (entries s) (entries_fts s) (ai_operations s) in
  (set_ai_operations ops' (set_fts fts' (set_entries es' s)), n).

(** [INSERT INTO ai_operations (...)]: PRIMARY KEY on [id]; the foreign key
    [entry_id REFERENCES entries(id)] is enforced. *)
Definition insert_ai_operation (o : AIOperation) (s : Store) : result Store :=
  if existsb (fun x => String.eqb (ai_id x) (ai_id o)) (ai_operations s)
  then Err (UniqueViolation "ai_operations" "id")
  else match find_by_id (ai_entry_id o) (entries s) with
       | None => Err (ForeignKeyViolation "ai_operations")
       | Some _ => Ok (set_ai_operations (ai_operations s ++ [o]) s)
       end.

(** ** Entry store operations ([queries.rs]) *)

(** [upsert_entry]: [now] is [Utc::now().timestamp_millis()] and [fresh_id]
    the value of [Uuid::new_v4()] the call would draw. *)
Definition upsert_entry (s : Store) (d c : string) (now : Z) (fresh_id : string)
    : result (Store * DiaryEntry) :=
  let '(s1, ret) :=
    update_entries (fun e => String.eqb (entry_date e) d)
      (fun e => mkEntry (id e) (entry_date e) c (mood e) (mood_emoji e)
                  (created_at e) now) s in
  match ret with
  | e :: _ => Ok (s1, e)
  | [] =>
      let entry := mkEntry fresh_id d c None None now now in
      s2 <- insert_entry entry s1 ;; Ok (s2, entry)
  end.

(** [serde_json::to_string(&json!({}))] *)
Definition empty_content : string := "{}".

Definition upsert_entry_mood (s : Store) (d : string) (m me : option string)
    (now : Z) (fresh_id : string) : result (Store * DiaryEntry) :=
  let '(s1, ret) :=
    update_entries (fun e => String.eqb (entry_date e) d)
      (fun e => mkEntry (id e) (entry_date e) (content_json e) m me
                  (created_at e) now) s in
  match ret with
  | e :: _ => Ok (s1, e)
  | [] =>
      let entry := mkEntry fresh_id d empty_content m me now now in
      s2 <- insert_entry entry s1 ;; Ok (s2, entry)
  end.

Definition get_entry (s : Store) (d : string) : option DiaryEntry :=
  find_by_date d (entries s).

Definition delete_entry (s : Store) (d : string) : Store * bool :=
  let '(s', n) := delete_entries (fun e => String.eqb (entry_date e) d) s in
  (s', Nat.ltb 0 n).

(** [import_data]: the loop over [data.entries] followed, when requested, by
    the loop over [data.ai_operations].  Every statement's error is
    propagated by [?], ending the import. *)
Fixpoint import_entries (s : Store) (es : list DiaryEntry) (ow : bool)
    (imported_count : nat) : result (Store * nat) :=
  match es with
  | [] => Ok (s, imported_count)
  | entry :: rest =>
      match find_by_date (entry_date entry) (entries s), ow with
      | None, _ =>
          s' <- insert_entry entry s ;;
          import_entries s' rest ow (S imported_count)
      | Some _, true =>
          let '(s', _) :=
            update_entries (fun e => String.eqb (entry_date e) (entry_date entry))
              (fun e => mkEntry (id e) (entry_date e) (content_json entry)
                          (mood entry) (mood_emoji entry) (created_at e)
                          (updated_at entry)) s in
          import_entries s' rest ow (S imported_count)
      | Some _, false => import_entries s rest ow imported_count
      end
  end.

Fixpoint import_ai_operations (s : Store) (ops : list AIOperation) : result Store :=
  match ops with
  | [] => Ok s
  | op :: rest =>
      if existsb (fun x => String.eqb (ai_id x) (ai_id op)) (ai_operations s)
      then import_ai_operations s rest
      else s' <- insert_ai_operation op s ;; import_ai_operations s' rest
  end.

Definition import_data (s : Store) (data : ExportData) (options : ImportOptions)
    : result (Store * nat) :=
  r <- import_entries s (data_entries data) (overwrite options) 0%nat ;;
  let '(s1, imported_count) := r in
  if include_ai_operations options then
    s2 <- import_ai_operations s1 (data_ai_operations data) ;;
    Ok (s2, imported_count)
  else Ok (s1, imported_count).




(** ** Full-text search ([search_entries]) *)

(** The FTS5 engine functions used by the query: [entries_fts MATCH q] and a
    relevance score of a row for [q] (higher is a better match).  SQLite
    documents that [bm25()] returns this score negated: "the better the
    match, the numerically smaller the value returned". *)
Definition bm25 (relevance : string -> FtsRow -> Z) (q : string) (r : FtsRow) : Z :=
  - relevance q r.

(** [ORDER BY bm25(entries_fts) DESC, e.entry_date DESC]: [row_before a b]
    holds when [a] sorts strictly before [b]. *)
Definition row_before (a b : DiaryEntry * Z) : bool :=
  (snd b <? snd a) ||
  ((snd a =? snd b) && String.ltb (entry_date (fst b)) (entry_date (fst a))).

Fixpoint insert_row (x : DiaryEntry * Z) (l : list (DiaryEntry * Z)) : list (DiaryEntry * Z) :=
  match l with
  | [] => [x]
  | y :: t => if row_before y x then y :: insert_row x t else x :: l
  end.

Definition sort_rows (l : list (DiaryEntry * Z)) : list (DiaryEntry * Z) :=
  fold_right insert_row [] l.

(** [SELECT e.* FROM entries e INNER JOIN entries_fts fts ON e.id = fts.entry_id
     WHERE entries_fts MATCH ? ORDER BY bm25(entries_fts) DESC, e.entry_date DESC] *)
Definition search_entries (fts_match : string -> FtsRow -> bool)
    (relevance : string -> FtsRow -> Z) (s : Store) (q : string) : list DiaryEntry :=
  let joined :=
    flat_map (fun e =>
      map (fun r => (e, bm25 relevance q r))
        (filter (fun r => String.eqb (fts_entry_id r) (id e) && fts_match q r)
           (entries_fts s)))
      (entries s) in
  map fst (sort_rows joined).

(** A concrete single-term instance of the engine: the unicode61 tokenizer
    on ASCII text (maximal runs of letters and digits, case folded), MATCH as
    token membership, and the term frequency of the query as the relevance
    (BM25 of a single term grows with the term frequency at equal idf). *)
Definition is_alnum (c : Ascii.ascii) : bool :=
  let n := Ascii.nat_of_ascii c in
  (Nat.leb 48 n && Nat.leb n 57) || (Nat.leb 65 n && Nat.leb n 90) ||
  (Nat.leb 97 n && Nat.leb n 122).

Definition fold_case (c : Ascii.ascii) : Ascii.ascii :=
  let n := Ascii.nat_of_ascii c in
  if Nat.leb 65 n && Nat.leb n 90 then Ascii.ascii_of_nat (n + 32) else c.

Fixpoint tokens_aux (s : string) (cur : string) : list string :=
  match s with
  | EmptyString => if String.eqb cur "" then [] else [cur]
  | String c rest =>
      if is_alnum c then tokens_aux rest (cur ++ String (fold_case c) EmptyString)%string
      else if String.eqb cur "" then tokens_aux rest ""
      else cur :: tokens_aux rest ""
  end.

Definition tokens (s : string) : list string := tokens_aux s "".

Definition row_tokens (r : FtsRow) : list string :=
  tokens (fts_content r) ++ tokens (fts_mood r).

Definition term_match (q : string) (r : FtsRow) : bool :=
  existsb (String.eqb q) (row_tokens r).

Definition term_frequency (q : string) (r : FtsRow) : Z :=
  Z.of_nat (length (filter (String.eqb q) (row_tokens r))).

(** ** Writing statistics ([calculate_current_streak], [calculate_longest_streak]) *)

Section Streaks.

(** [chrono::NaiveDate::parse_from_str(s, "%Y-%m-%d")], as a day number
    ([None] when parsing fails).  The results below hold for any parser. *)
Variable parse_date : string -> option Z.

Fixpoint current_streak_loop (check_date streak_count : Z) (ds : list string) : Z :=
  match ds with
  | [] => streak_count
  | date_str :: rest =>
      match parse_date date_str with
      | Some ed =>
          if ed =? check_date then
            current_streak_loop (check_date - 1) (streak_count + 1) rest
          else if ed <? check_date then streak_count
          else current_streak_loop check_date streak_count rest
      | None => current_streak_loop check_date streak_count rest
      end
  end.

(** [today] is [Utc::now().date_naive()] as a day number. *)
Definition calculate_current_streak (today : Z) (dates : list string) : Z :=
  match dates with
  | [] => 0
  | _ => current_streak_loop today 0 (rev dates)
  end.

Fixpoint longest_streak_loop (prev_date : option Z) (longest current : Z)
    (ds : list string) : Z :=
  match ds with
  | [] => Z.max longest current
  | date_str :: rest =>
      match parse_date date_str with
      | Some ed =>
          match prev_date with
          | Some prev =>
              if ed - prev =? 1 then longest_streak_loop (Some ed) longest (current + 1) rest
              else longest_streak_loop (Some ed) (Z.max longest current) 1 rest
          | None => longest_streak_loop (Some ed) longest 1 rest
          end
      | None => longest_streak_loop prev_date longest current rest
      end
  end.

Definition calculate_longest_streak (dates : list string) : Z :=
  match dates with
  | [] => 0
  | _ => longest_streak_loop None 0 0 dates
  end.

(** The specification's algorithms, on the distinct valid dates. *)
Fixpoint valid_dates (ds : list string) : list Z :=
  match ds with
  | [] => []
  | d :: rest =>
      match parse_date d with
      | Some x => x :: valid_dates rest
      | None => valid_dates rest
      end
  end.



Fixpoint spec_current_walk (expected streak : Z) (l : list Z) : Z :=
  match l with
  | [] => streak
  | x :: rest =>
      if x =? expected then spec_current_walk (expected - 1) (streak + 1) rest
      else if x <? expected then streak
      else spec_current_walk expected streak rest
  end.


Fixpoint spec_longest_scan (prev best current_run : Z) (l : list Z) : Z :=
  match l with
  | [] => Z.max best current_run
  | x :: rest =>
      if x =? prev + 1 then spec_longest_scan x best (current_run + 1) rest
      else spec_longest_scan x (Z.max best current_run) 1 rest
  end.


End Streaks.

(** Strictly increasing day numbers.  [get_writing_stats] passes the dates
    in ascending string order, which need not be date order: 2026-1-1 sorts
    after 2026-01-02. *)
Fixpoint strictly_increasing (l : list Z) : bool :=
  match l with
  | x :: ((y :: _) as t) => (x <? y) && strictly_increasing t
  | _ => true
  end.

(** A concrete [%Y-%m-%d] parser for zero-padded dates, to a day number
    counted from 1970-01-01. *)
Definition digit (c : Ascii.ascii) : option Z :=
  let n := Ascii.nat_of_ascii c in
  if Nat.leb 48 n && Nat.leb n 57 then Some (Z.of_nat n - 48) else None.

Fixpoint digits_value (s : string) (acc : Z) : option Z :=
  match s with
  | EmptyString => Some acc
  | String c rest =>
      match digit c with
      | Some v => digits_value rest (10 * acc + v)
      | None => None
      end
  end.

Definition is_leap (y : Z) : bool :=
  (Z.eqb (y mod 4) 0 && negb (Z.eqb (y mod 100) 0)) || Z.eqb (y mod 400) 0.

Definition days_in_month (y m : Z) : Z :=
  if m =? 2 then (if is_leap y then 29 else 28)
  else if (m =? 4) || (m =? 6) || (m =? 9) || (m =? 11) then 30 else 31.

Definition days_from_civil (y m d : Z) : Z :=
  let y' := if m <=? 2 then y - 1 else y in
  let era := y' / 400 in
  let yoe := y' - era * 400 in
  let mp := if m >? 2 then m - 3 else m + 9 in
  let doy := (153 * mp + 2) / 5 + d - 1 in
  let doe := yoe * 365 + yoe / 4 - yoe / 100 + doy in
  era * 146097 + doe - 719468.

Definition parse_ymd (s : string) : option Z :=
  if Nat.eqb (String.length s) 10
     && String.eqb (String.substring 4 1 s) "-"
     && String.eqb (String.substring 7 1 s) "-" then
    match digits_value (String.substring 0 4 s) 0,
          digits_value (String.substring 5 2 s) 0,
          digits_value (String.substring 8 2 s) 0 with
    | Some y, Some m, Some d =>
        if (1 <=? m) && (m <=? 12) && (1 <=? d) && (d <=? days_in_month y m)
        then Some (days_from_civil y m d) else None
    | _, _, _ => None
    end
  else None.





(** ** Schema migrations ([migrations.rs]) *)

Definition set_schema (t cols idx trg : list string) (sm : option (list (Z * Z)))
    (s : Store) : Store :=
  mkStore t cols idx trg sm (entries s) (ai_operations s) (entries_fts s) (app_settings s).

Definition add_name (x : string) (l : list string) : list string :=
  if existsb (String.eqb x) l then l else l ++ [x].

Definition has_name (x : string) (l : list string) : bool := existsb (String.eqb x) l.

(** [CREATE TABLE IF NOT EXISTS schema_migrations (...)] *)
Definition create_schema_migrations (s : Store) : Store :=
  match schema_migrations s with
  | Some _ => s
  | None => set_schema (add_name "schema_migrations" (tables s)) (entry_columns s)
              (indexes s) (triggers s) (Some []) s
  end.

Definition create_index (name : string) (s : Store) : Store :=
  set_schema (tables s) (entry_columns s) (add_name name (indexes s)) (triggers s)
    (schema_migrations s) s.

Definition create_trigger (name : string) (s : Store) : Store :=
  set_schema (tables s) (entry_columns s) (indexes s) (add_name name (triggers s))
    (schema_migrations s) s.

(** [CREATE TABLE IF NOT EXISTS t (...)]; for [entries] the columns of its
    definition are recorded. *)
Definition create_table (t : string) (cols : list string) (s : Store) : Store :=
  if has_name t (tables s) then s
  else set_schema (tables s ++ [t])
         (if String.eqb t "entries" then cols else entry_columns s)
         (indexes s) (triggers s) (schema_migrations s) s.

Definition MIGRATION_001 (s : Store) : result Store :=
  let s := create_table "entries"
             ["id"; "entry_date"; "content_json"; "created_at"; "updated_at"] s in
  let s := create_index "idx_entries_entry_date" s in
  let s := create_index "idx_entries_created_at" s in
  Ok (create_schema_migrations s).

(** [DROP TABLE IF EXISTS ai_operations;] also drops the table's rows and
    indexes. *)
Definition ai_operations_indexes : list string :=
  ["idx_ai_operations_entry_id"; "idx_ai_operations_created_at";
   "idx_ai_operations_op_type"].

Definition drop_ai_operations (s : Store) : Store :=
  if has_name "ai_operations" (tables s) then
    set_ai_operations []
      (set_schema (filter (fun t => negb (String.eqb t "ai_operations")) (tables s))
         (entry_columns s)
         (filter (fun i => negb (has_name i ai_operations_indexes)) (indexes s))
         (triggers s) (schema_migrations s) s)
  else s.

Definition MIGRATION_002 (s : Store) : result Store :=
  let s := create_table "ai_operations" [] s in
  Ok (fold_left (fun s i => create_index i s) ai_operations_indexes s).

Definition MIGRATION_003 (s : Store) : result Store :=
  let s := create_table "app_settings" [] s in
  Ok (create_index "idx_app_settings_updated_at" s).

(** [ALTER TABLE entries ADD COLUMN c] *)
Definition add_entries_column (c : string) (s : Store) : result Store :=
  if negb (has_name "entries" (tables s)) then Err (NoSuchTable "entries")
  else if has_name c (entry_columns s) then Err (DuplicateColumn c)
  else Ok (set_schema (tables s) (entry_columns s ++ [c]) (indexes s) (triggers s)
             (schema_migrations s) s).

Definition MIGRATION_004 (s : Store) : result Store :=
  s <- add_entries_column "mood" s ;;
  s <- add_entries_column "mood_emoji" s ;;
  Ok (create_index "idx_entries_mood" s).

(** Creates the FTS table, copies every entry into it
    ([INSERT INTO entries_fts ... SELECT id, content_json, COALESCE(mood, '')
    FROM entries]) and installs the three triggers. *)
Definition MIGRATION_005 (s : Store) : result Store :=
  let s := create_table "entries_fts" [] s in
  let s := set_fts (entries_fts s ++ map project (entries s)) s in
  Ok (create_trigger "entries_au" (create_trigger "entries_ad" (create_trigger "entries_ai" s))).

(** [SELECT COALESCE(MAX(version), 0) FROM schema_migrations] *)
Definition current_version (s : Store) : Z :=
  match schema_migrations s with
  | Some rows => fold_left Z.max (map fst rows) 0
  | None => 0
  end.

(** [INSERT INTO schema_migrations (version, applied_at) VALUES (?, ?)] *)
Definition record_version (v applied_at : Z) (s : Store) : result Store :=
  match schema_migrations s with
  | None => Err (NoSuchTable "schema_migrations")
  | Some rows =>
      if existsb (fun r => fst r =? v) rows
      then Err (UniqueViolation "schema_migrations" "version")
      else Ok (set_schema (tables s) (entry_columns s) (indexes s) (triggers s)
                 (Some (rows ++ [(v, applied_at)])) s)
  end.

Definition latest_version : Z := 5.

(** [migrations::run]: one transaction, so an error leaves the store as it
    was (the [Err] carries no store).  [now v] is the timestamp read before
    recording version [v]. *)
Definition run (s : Store) (now : Z -> Z) : result Store :=
  let s0 := create_schema_migrations s in
  let cv := current_version s0 in
  s1 <- (if cv <? 1 then s' <- MIGRATION_001 s0 ;; record_version 1 (now 1) s'
         else Ok s0) ;;
  s2 <- (if cv <? 2 then s' <- MIGRATION_002 (drop_ai_operations s1) ;;
                         record_version 2 (now 2) s'
         else Ok s1) ;;
  s3 <- (if cv <? 3 then s' <- MIGRATION_003 s2 ;; record_version 3 (now 3) s'
         else Ok s2) ;;
  s4 <- (if cv <? 4 then s' <- MIGRATION_004 s3 ;; record_version 4 (now 4) s'
         else Ok s3) ;;
  s5 <- (if cv <? 5 then s' <- MIGRATION_005 s4 ;; record_version 5 (now 5) s'
         else Ok s4) ;;
  Ok s5.

Definition empty_store : Store := mkStore [] [] [] [] None [] [] [] [].

(** ** [upsert_entry] as the two statements it issues on the shared pool

    [upsert_entry] runs its UPDATE and its INSERT as two separate
    auto-committed statements; another caller's statements can run between
    them.  A call in progress is its arguments and the next statement. *)
Inductive upsert_pc :=
  | AtUpdate
  | AtInsert
  | Finished (r : result DiaryEntry).

Record UpsertCall := mkUpsertCall {
  call_date : string;
  call_content : string;
  call_now : Z;
  call_fresh_id : string;
  call_pc : upsert_pc
}.

Definition set_pc (c : UpsertCall) (pc : upsert_pc) : UpsertCall :=
  mkUpsertCall (call_date c) (call_content c) (call_now c) (call_fresh_id c) pc.

Definition upsert_step (s : Store) (c : UpsertCall) : Store * UpsertCall :=
  match call_pc c with
  | AtUpdate =>
      let '(s1, ret) :=
        update_entries (fun e => String.eqb (entry_date e) (call_date c))
          (fun e => mkEntry (id e) (entry_date e) (call_content c) (mood e)
                      (mood_emoji e) (created_at e) (call_now c)) s in
      match ret with
      | e :: _ => (s1, set_pc c (Finished (Ok e)))
      | [] => (s1, set_pc c AtInsert)
      end
  | AtInsert =>
      let entry := mkEntry (call_fresh_id c) (call_date c) (call_content c)
                     None None (call_now c) (call_now c) in
      match insert_entry entry s with
      | Ok s2 => (s2, set_pc c (Finished (Ok entry)))
      | Err e => (s, set_pc c (Finished (Err e)))
      end
  | Finished _ => (s, c)
  end.

(** Two concurrent callers; [false] schedules the first, [true] the second. *)
Fixpoint run_schedule (s : Store) (a b : UpsertCall) (sched : list bool)
    : Store * UpsertCall * UpsertCall :=
  match sched with
  | [] => (s, a, b)
  | false :: rest => let '(s', a') := upsert_step s a in run_schedule s' a' b rest
  | true :: rest => let '(s', b') := upsert_step s b in run_schedule s' a b' rest
  end.

Definition outcome (r : Store * UpsertCall * UpsertCall)
    : Store * upsert_pc * upsert_pc :=
  let '(s, a, b) := r in (s, call_pc a, call_pc b).

Definition both_finished (r : Store * UpsertCall * UpsertCall) : bool :=
  let '(_, a, b) := r in
  match call_pc a, call_pc b with
  | Finished _, Finished _ => true
  | _, _ => false
  end.

(** An operation atomic from the callers' point of view: every interleaving
    of the two calls that completes both ends as one of the two serial
    orders does. *)
Definition serializable (s : Store) (a b : UpsertCall) : Prop :=
  forall sched,
    both_finished (run_schedule s a b sched) = true ->
    outcome (run_schedule s a b sched) = outcome (run_schedule s a b [false; false; true; true])
    \/ outcome (run_schedule s a b sched) = outcome (run_schedule s a b [true; true; false; false]).

(** What a reader can observe while the calls [a] and [b] upsert the date of
    [a]: every other date as in the starting store [s0], and for that date
    no row, or a row whose content and [updated_at] come from one same
    call. *)
Definition fully_written (a b : UpsertCall) (s0 s : Store) : Prop :=
  (forall d', d' <> call_date a -> get_entry s d' = get_entry s0 d') /\
  match get_entry s (call_date a) with
  | None => True
  | Some e => (content_json e = call_content a /\ updated_at e = call_now a) \/
              (content_json e = call_content b /\ updated_at e = call_now b)
  end.

(** ** The index invariant *)

Definition rows_for (x : string) (fts : list FtsRow) : list FtsRow :=
  filter (fun r => String.eqb (fts_entry_id r) x) fts.

(** Well-formedness guaranteed by the PRIMARY KEY and UNIQUE constraints. *)
Definition wf (s : Store) : Prop :=
  NoDup (map id (entries s)) /\ NoDup (map entry_date (entries s)).

(** Every live entry has exactly one index row, with its projected content
    and mood; every index row belongs to a live entry. *)
Definition index_consistent (s : Store) : Prop :=
  (forall e, In e (entries s) -> rows_for (id e) (entries_fts s) = [project e]) /\
  (forall r, In r (entries_fts s) ->
     exists e, In e (entries s) /\ id e = fts_entry_id r).

(** The same invariant, as a function of the entry id. *)
Definition expected_rows (x : string) (es : list DiaryEntry) : list FtsRow :=
  match find_by_id x es with Some e => [project e] | None => [] end.

Definition index_synced (es : list DiaryEntry) (fts : list FtsRow) : Prop :=
  forall x, rows_for x fts = expected_rows x es.

(** The caller-visible entry mutations of [queries.rs], each a successful
    call: [upsert_entry], [upsert_entry_mood], [delete_entry] and
    [import_data] (whose entry loop inserts or overwrites). *)
Inductive entry_mutation (s s' : Store) : Prop :=
  | mut_upsert_entry d c now fid e :
      upsert_entry s d c now fid = Ok (s', e) -> entry_mutation s s'
  | mut_upsert_entry_mood d m me now fid e :
      upsert_entry_mood s d m me now fid = Ok (s', e) -> entry_mutation s s'
  | mut_delete_entry d b :
      delete_entry s d = (s', b) -> entry_mutation s s'
  | mut_import_data data options n :
      import_data s data options = Ok (s', n) -> entry_mutation s s'.

(** Repeated [upsert_entry] calls on one date; each call is
    [(content_json, now, fresh_id)]. *)
Fixpoint upsert_many (s : Store) (d : string) (calls : list (string * Z * string))
    : result (Store * list DiaryEntry) :=
  match calls with
  | [] => Ok (s, [])
  | (c, now, fid) :: rest =>
      r <- upsert_entry s d c now fid ;;
      let '(s1, e) := r in
      r' <- upsert_many s1 d rest ;;
      let '(s2, es) := r' in
      Ok (s2, e :: es)
  end.

(** Fields an upsert of the content must leave alone. *)
Definition same_identity (e e0 : DiaryEntry) : Prop :=
  id e = id e0 /\ created_at e = created_at e0 /\
  mood e = mood e0 /\ mood_emoji e = mood_emoji e0.

(** Stores used by the concrete instances below. *)
Definition store_one : Store :=
  set_fts [mkFtsRow "u1" "coffee" "happy"]
    (set_entries [mkEntry "u1" "2026-01-01" "coffee" (Some "happy") (Some "h") 10 10]
       empty_store).

Definition op_one : AIOperation :=
  mkAIOperation "op1" "u1" "polish" "coffee" "Coffee." "zhipu" "glm-4-flash" 11.

Definition store_with_op : Store := set_ai_operations [op_one] store_one.

(** The store produced by migrating a fresh database. *)
Definition migrated_once : Store :=
  match run empty_store (fun v => 1000 + v) with Ok s => s | Err _ => empty_store end.




(** Two entries that both contain "coffee": the one of 2026-01-01 twice, the
    one of 2026-01-02 once, with their search-index rows. *)
Definition entry_twice : DiaryEntry :=
  mkEntry "a1" "2026-01-01" "coffee coffee" None None 1 1.

Definition entry_once : DiaryEntry :=
  mkEntry "b1" "2026-01-02" "coffee" None None 2 2.

Definition store_search : Store :=
  set_fts [project entry_twice; project entry_once]
    (set_entries [entry_twice; entry_once] migrated_once).

(** Two callers saving the same new date concurrently (two editor windows,
    or an autosave racing a manual save). *)
Definition call_a : UpsertCall := mkUpsertCall "2026-01-01" "a" 1 "u1" AtUpdate.
Definition call_b : UpsertCall := mkUpsertCall "2026-01-01" "b" 2 "u2" AtUpdate.

(** The interleaving UPDATE(a); UPDATE(b); INSERT(a); INSERT(b). *)
Definition interleaved : list bool := [false; true; false; true].


(** The row the INSERT of a call writes. *)
Definition inserted_entry (c : UpsertCall) : DiaryEntry :=
  mkEntry (call_fresh_id c) (call_date c) (call_content c) None None (call_now c) (call_now c).

(** A bundle with an entry for a date already present (skipped without
    overwrite), an entry for a new date, and an AI operation on it. *)
Definition bundle_mixed : ExportData :=
  mkExportData "1.0" 50
    [mkEntry "u5" "2026-01-01" "older copy" None None 20 20;
     mkEntry "u6" "2026-01-03" "new day" (Some "calm") (Some "c") 21 21]
    [mkAIOperation "op2" "u6" "expand" "new day" "A new day." "zhipu" "glm-4-flash" 22].

(** ** Further queries of [queries.rs] *)

(** Sorting for [ORDER BY]: insertion of [x] before the first row [y] with
    [le x y].  Rows that compare equal come out in an order SQLite leaves
    unspecified; the results proved below hold whatever that order is. *)
Fixpoint insert_by {A : Type} (le : A -> A -> bool) (x : A) (l : list A) : list A :=
  match l with
  | [] => [x]
  | y :: t => if le x y then x :: l else y :: insert_by le x t
  end.

Definition sort_by {A : Type} (le : A -> A -> bool) (l : list A) : list A :=
  fold_right (insert_by le) [] l.

Fixpoint sorted_by {A : Type} (le : A -> A -> bool) (l : list A) : bool :=
  match l with
  | x :: ((y :: _) as t) => le x y && sorted_by le t
  | _ => true
  end.

(** *** Settings ([save_setting], [get_setting]) *)

Definition set_app_settings (rows : list (string * string * Z)) (s : Store) : Store :=
  mkStore (tables s) (entry_columns s) (indexes s) (triggers s)
    (schema_migrations s) (entries s) (ai_operations s) (entries_fts s) rows.

(** A row [(key, value, updated_at)] of [app_settings]. *)
Definition setting_key (r : string * string * Z) : string := fst (fst r).
Definition setting_value (r : string * string * Z) : string := snd (fst r).

(** [INSERT INTO app_settings (key, value, updated_at) VALUES (?, ?, ?)
     ON CONFLICT(key) DO UPDATE SET value = ?, updated_at = ?] *)
Definition save_setting (s : Store) (key value : string) (now : Z) : Store :=
  if existsb (fun r => String.eqb (setting_key r) key) (app_settings s)
  then set_app_settings
         (map (fun r => if String.eqb (setting_key r) key then (key, value, now) else r)
            (app_settings s)) s
  else set_app_settings (app_settings s ++ [(key, value, now)]) s.

(** [SELECT value FROM app_settings WHERE key = ?] with [fetch_optional]. *)
Definition get_setting (s : Store) (key : string) : option string :=
  option_map setting_value
    (find (fun r => String.eqb (setting_key r) key) (app_settings s)).

(** *** AI operations ([create_ai_operation], [list_ai_operations],
    [delete_ai_operations_for_entry]) *)

(** [now] is [Utc::now().timestamp_millis()] and [fresh_id] the value of
    [Uuid::new_v4()]. *)
Definition create_ai_operation (s : Store)
    (entry_id op_type original_text result_text provider model : string)
    (now : Z) (fresh_id : string) : result (Store * AIOperation) :=
  let operation := mkAIOperation fresh_id entry_id op_type original_text
                     result_text provider model now in
  s' <- insert_ai_operation operation s ;; Ok (s', operation).

(** [SELECT * FROM ai_operations WHERE entry_id = ? ORDER BY created_at DESC] *)
Definition list_ai_operations (s : Store) (entry_id : string) : list AIOperation :=
  sort_by (fun a b => ai_created_at b <=? ai_created_at a)
    (filter (fun o => String.eqb (ai_entry_id o) entry_id) (ai_operations s)).

(** [DELETE FROM ai_operations WHERE entry_id = ?], returning
    [rows_affected()]. *)
Definition delete_ai_operations_for_entry (s : Store) (entry_id : string) : Store * nat :=
  (set_ai_operations
     (filter (fun o => negb (String.eqb (ai_entry_id o) entry_id)) (ai_operations s)) s,
   length (filter (fun o => String.eqb (ai_entry_id o) entry_id) (ai_operations s))).

(** *** Month listings ([list_entries], [list_entries_by_mood]) *)

(** SQLite's [LIKE] without ESCAPE and with [case_sensitive_like] off: [%]
    matches any run of characters, [_] one character, and any other
    character matches itself up to ASCII case.  The text is UTF-8, read as
    SQLite's [sqlite3Utf8Read] reads it: a character is a byte followed, when
    that byte is at least 0xC0, by the continuation bytes (0x80 to 0xBF)
    after it. *)
Definition is_cont (c : Ascii.ascii) : bool :=
  (128 <=? Ascii.N_of_ascii c)%N && (Ascii.N_of_ascii c <=? 191)%N.

Definition is_lead (c : Ascii.ascii) : bool := (192 <=? Ascii.N_of_ascii c)%N.

Fixpoint drop_cont (s : string) : string :=
  match s with
  | String c rest => if is_cont c then drop_cont rest else s
  | EmptyString => EmptyString
  end.

(** The text after the character that starts with byte [c]. *)
Definition after_char (c : Ascii.ascii) (rest : string) : string :=
  if is_lead c then drop_cont rest else rest.

Fixpoint like (pattern s : string) {struct pattern} : bool :=
  match pattern with
  | EmptyString => String.eqb s ""
  | String pc prest =>
      if Ascii.eqb pc "%"%char then
        (fix any (inside : bool) (t : string) {struct t} : bool :=
           match t with
           | EmptyString => like prest EmptyString
           | String c rest =>
               let boundary := negb (inside && is_cont c) in
               (boundary && like prest t) ||
               any (if boundary then is_lead c else true) rest
           end) false s
      else
        match s with
        | EmptyString => false
        | String c rest =>
            if Ascii.eqb pc "_"%char then like prest (after_char c rest)
            else Ascii.eqb (fold_case pc) (fold_case c) && like prest rest
        end
  end.

(** [ORDER BY entry_date DESC] (BINARY collation: byte-wise comparison). *)
Definition entry_date_desc (a b : DiaryEntry) : bool :=
  String.leb (entry_date b) (entry_date a).

(** [SELECT * FROM entries WHERE entry_date LIKE ? ORDER BY entry_date DESC],
    bound to [format!("{}%", month)]. *)
Definition list_entries (s : Store) (month : string) : list DiaryEntry :=
  sort_by entry_date_desc
    (filter (fun e => like (month ++ "%") (entry_date e)) (entries s)).

(** [mood = ?]: a NULL mood never compares equal. *)
Definition mood_is (m : string) (e : DiaryEntry) : bool :=
  match mood e with
  | Some x => String.eqb x m
  | None => false
  end.

(** [SELECT * FROM entries WHERE entry_date LIKE ? AND mood = ?
     ORDER BY entry_date DESC] *)
Definition list_entries_by_mood (s : Store) (month m : string) : list DiaryEntry :=
  sort_by entry_date_desc
    (filter (fun e => like (month ++ "%") (entry_date e) && mood_is m e) (entries s)).

(** Characters of a month string such as 2026-01: digits and dashes. *)
Definition is_digit_or_dash (c : Ascii.ascii) : bool :=
  match digit c with
  | Some _ => true
  | None => Ascii.eqb c "-"%char
  end.

Fixpoint all_chars (f : Ascii.ascii -> bool) (s : string) : bool :=
  match s with
  | EmptyString => true
  | String c rest => f c && all_chars f rest
  end.

(** *** Writing statistics ([get_writing_stats]) *)

Record WritingStats := mkWritingStats {
  total_entries : Z;
  current_streak : Z;
  longest_streak : Z
}.

(** [SELECT COUNT( * ) FROM entries], then
    [SELECT entry_date FROM entries ORDER BY entry_date ASC] passed to both
    streak functions; [parse_date] and [today] as for those functions. *)
Definition get_writing_stats (parse_date : string -> option Z) (s : Store) (today : Z)
    : WritingStats :=
  let total_count := Z.of_nat (length (entries s)) in
  let dates := sort_by String.leb (map entry_date (entries s)) in
  mkWritingStats total_count
    (calculate_current_streak parse_date today dates)
    (calculate_longest_streak parse_date dates).

(** *** Export ([export_all_data]) *)

(** [SELECT * FROM entries ORDER BY entry_date ASC] and
    [SELECT * FROM ai_operations ORDER BY created_at ASC]; [now] is
    [Utc::now().timestamp_millis()]. *)
Definition export_all_data (s : Store) (now : Z) : ExportData :=
  mkExportData "1.0" now
    (sort_by (fun a b => String.leb (entry_date a) (entry_date b)) (entries s))
    (sort_by (fun a b => ai_created_at a <=? ai_created_at b) (ai_operations s)).

(** ** Auxiliary definitions for the further properties *)

(** Every byte value, as the 256 characters of [Ascii.ascii]. *)
Definition all_ascii : list Ascii.ascii := map Ascii.ascii_of_nat (seq 0 256).

(** The rows of the four data tables are unchanged from [s] to [s']. *)
Definition same_rows (s s' : Store) : Prop :=
  entries s' = entries s /\ ai_operations s' = ai_operations s /\
  entries_fts s' = entries_fts s /\ app_settings s' = app_settings s.

(** Whether the table [ai_operations] exists. *)
Definition ai_table (s : Store) : bool := has_name "ai_operations" (tables s).

(** A second AI operation on the entry of [store_one]. *)
Definition op_two : AIOperation :=
  mkAIOperation "op2" "u1" "expand" "coffee" "More coffee." "zhipu" "glm-4-flash" 12.

(** A database at version 1 that already has an [ai_operations] table with
    a row (created with an older schema), and one setting. *)
Definition legacy_v1 : Store :=
  mkStore ["entries"; "schema_migrations"; "ai_operations"]
    ["id"; "entry_date"; "content_json"; "created_at"; "updated_at"]
    ["idx_entries_entry_date"; "idx_entries_created_at"] []
    (Some [(1, 5)])
    [mkEntry "u1" "2026-01-01" "coffee" None None 10 10]
    [op_one] [] [("theme", "dark", 3)].

Definition legacy_v1_migrated : Store :=
  match run legacy_v1 (fun v => 1000 + v) with Ok s => s | Err _ => legacy_v1 end.

(** ** Lemmas on the statements *)

Lemma eqb_refl' (x : string) : String.eqb x x = true.
Proof. apply String.eqb_refl. Qed.

Lemma find_by_id_in (es : list DiaryEntry) (e : DiaryEntry) :
  NoDup (map id es) -> In e es -> find_by_id (id e) es = Some e.
Proof.
  induction es as [|e' es IH]; simpl; [tauto|].
  intros Hnd Hin. inversion Hnd as [|? ? Hnotin Hnd']; subst.
  destruct Hin as [<-|Hin].
  - now rewrite eqb_refl'.
  - destruct (String.eqb_spec (id e') (id e)) as [Heq|Hne].
    + exfalso. apply Hnotin. rewrite Heq. now apply in_map.
    + now apply IH.
Qed.

Lemma find_by_id_some (x : string) (es : list DiaryEntry) (e : DiaryEntry) :
  find_by_id x es = Some e -> In e es /\ id e = x.
Proof.
  unfold find_by_id. intros H. apply find_some in H as [Hin Heq].
  apply String.eqb_eq in Heq. auto.
Qed.

Lemma find_by_id_none (x : string) (es : list DiaryEntry) :
  find_by_id x es = None -> ~ In x (map id es).
Proof.
  unfold find_by_id. intros H Hin. apply in_map_iff in Hin as [e [Hx Hin]].
  pose proof (find_none _ _ H e Hin) as Hf. simpl in Hf.
  rewrite Hx, eqb_refl' in Hf. discriminate.
Qed.

Lemma find_by_id_not_in (x : string) (es : list DiaryEntry) :
  ~ In x (map id es) -> find_by_id x es = None.
Proof.
  induction es as [|e es IH]; simpl; auto. intros Hn.
  destruct (String.eqb_spec (id e) x); [tauto|]. apply IH. tauto.
Qed.

Lemma synced_consistent (s : Store) :
  NoDup (map id (entries s)) ->
  index_synced (entries s) (entries_fts s) <-> index_consistent s.
Proof.
  intros Hnd. split.
  - intros Hs. split.
    + intros e Hin. rewrite Hs. unfold expected_rows.
      now rewrite (find_by_id_in _ _ Hnd Hin).
    + intros r Hr. specialize (Hs (fts_entry_id r)). unfold expected_rows in Hs.
      destruct (find_by_id (fts_entry_id r) (entries s)) as [e|] eqn:Hf.
      * apply find_by_id_some in Hf. exists e. tauto.
      * assert (Hin : In r (rows_for (fts_entry_id r) (entries_fts s))).
        { apply filter_In. split; auto. apply eqb_refl'. }
        rewrite Hs in Hin. contradiction.
  - intros [H1 H2] x. unfold expected_rows.
    destruct (find_by_id x (entries s)) as [e|] eqn:Hf.
    + apply find_by_id_some in Hf as [Hin <-]. now apply H1.
    + destruct (rows_for x (entries_fts s)) as [|r rs] eqn:Hr; auto.
      assert (Hin : In r (rows_for x (entries_fts s))) by (rewrite Hr; now left).
      apply filter_In in Hin as [Hin Heq]. apply String.eqb_eq in Heq.
      destruct (H2 r Hin) as [e [He Hid]].
      apply find_by_id_none in Hf. exfalso. apply Hf.
      rewrite <- Heq, <- Hid. now apply in_map.
Qed.

Lemma rows_for_ai (x : string) (e : DiaryEntry) (fts : list FtsRow) :
  rows_for x (trg_entries_ai e fts) =
  rows_for x fts ++ (if String.eqb (id e) x then [project e] else []).
Proof.
  unfold rows_for, trg_entries_ai. rewrite filter_app. simpl. reflexivity.
Qed.

Lemma rows_for_ad (x : string) (e : DiaryEntry) (fts : list FtsRow) :
  rows_for x (trg_entries_ad e fts) =
  if String.eqb (id e) x then [] else rows_for x fts.
Proof.
  unfold rows_for, trg_entries_ad. induction fts as [|r fts IH]; simpl.
  - destruct (String.eqb (id e) x); reflexivity.
  - destruct (String.eqb_spec (fts_entry_id r) (id e)) as [E1|E1]; simpl.
    + rewrite IH. destruct (String.eqb_spec (id e) x) as [E2|E2]; auto.
      destruct (String.eqb_spec (fts_entry_id r) x); congruence.
    + destruct (String.eqb_spec (fts_entry_id r) x) as [E3|E3];
      rewrite IH; destruct (String.eqb_spec (id e) x); congruence.
Qed.

Lemma filter_filter' {A} (g h : A -> bool) (l : list A) :
  filter g (filter h l) = filter (fun x => h x && g x) l.
Proof.
  induction l as [|a l IH]; simpl; auto.
  destruct (h a); simpl; rewrite ?IH; auto.
Qed.

Section UpdateRows.

Variable p : DiaryEntry -> bool.
Variable f : DiaryEntry -> DiaryEntry.
Hypothesis f_id : forall e, id (f e) = id e.
Hypothesis f_date : forall e, entry_date (f e) = entry_date e.

Definition upd (e : DiaryEntry) : DiaryEntry := if p e then f e else e.

Lemma update_rows_spec (es : list DiaryEntry) : forall fts,
  fst (fst (update_rows p f es fts)) = map upd es /\
  snd (update_rows p f es fts) = map f (filter p es).
Proof.
  induction es as [|e es IH]; intros fts; simpl; auto.
  unfold upd at 1. destruct (p e).
  - destruct (update_rows p f es (trg_entries_au e (f e) fts)) as [[a b] c] eqn:E.
    destruct (IH (trg_entries_au e (f e) fts)) as [H1 H2]. rewrite E in H1, H2.
    simpl in *. subst. auto.
  - destruct (update_rows p f es fts) as [[a b] c] eqn:E.
    destruct (IH fts) as [H1 H2]. rewrite E in H1, H2. simpl in *. subst. auto.
Qed.

Lemma update_rows_fts (es : list DiaryEntry) : forall fts,
  NoDup (map id es) ->
  forall x, rows_for x (snd (fst (update_rows p f es fts))) =
    match find_by_id x es with
    | Some e => if p e then [project (f e)] else rows_for x fts
    | None => rows_for x fts
    end.
Proof.
  induction es as [|e es IH]; intros fts Hnd x; simpl; auto.
  inversion Hnd as [|? ? Hnotin Hnd']; subst.
  assert (Hrest : String.eqb (id e) x = true -> find_by_id x es = None).
  { intros Hx. apply String.eqb_eq in Hx. subst. now apply find_by_id_not_in. }
  destruct (p e) eqn:Hp.
  - destruct (update_rows p f es (trg_entries_au e (f e) fts)) as [[a b] c] eqn:E.
    pose proof (IH (trg_entries_au e (f e) fts) Hnd' x) as H. rewrite E in H.
    simpl in *. rewrite H. unfold trg_entries_au.
    rewrite rows_for_ai, rows_for_ad, f_id.
    destruct (String.eqb (id e) x) eqn:Hx.
    + now rewrite (Hrest eq_refl), Hp.
    + rewrite app_nil_r. reflexivity.
  - destruct (update_rows p f es fts) as [[a b] c] eqn:E.
    pose proof (IH fts Hnd' x) as H. rewrite E in H. simpl in *. rewrite H.
    destruct (String.eqb (id e) x) eqn:Hx; auto.
    now rewrite (Hrest eq_refl), Hp.
Qed.

Lemma map_id_upd (es : list DiaryEntry) : map id (map upd es) = map id es.
Proof.
  induction es as [|e es IH]; simpl; auto. unfold upd at 1.
  destruct (p e); rewrite ?f_id, IH; auto.
Qed.

Lemma map_date_upd (es : list DiaryEntry) :
  map entry_date (map upd es) = map entry_date es.
Proof.
  induction es as [|e es IH]; simpl; auto. unfold upd at 1.
  destruct (p e); rewrite ?f_date, IH; auto.
Qed.

Lemma find_by_id_upd (x : string) (es : list DiaryEntry) :
  find_by_id x (map upd es) = option_map upd (find_by_id x es).
Proof.
  induction es as [|e es IH]; auto.
  change (map upd (e :: es)) with (upd e :: map upd es).
  unfold find_by_id in *. simpl. rewrite IH.
  assert (Hi : id (upd e) = id e) by (unfold upd; destruct (p e); auto).
  rewrite Hi. destruct (String.eqb (id e) x); reflexivity.
Qed.

Lemma update_entries_invariant (s : Store) :
  wf s -> index_synced (entries s) (entries_fts s) ->
  wf (fst (update_entries p f s)) /\
  index_synced (entries (fst (update_entries p f s)))
    (entries_fts (fst (update_entries p f s))).
Proof.
  intros [Hid Hdate] Hs. unfold update_entries.
  pose proof (update_rows_spec (entries s) (entries_fts s)) as [H1 _].
  pose proof (update_rows_fts (entries s) (entries_fts s) Hid) as H2.
  destruct (update_rows p f (entries s) (entries_fts s)) as [[a b] c] eqn:E.
  cbn [fst snd] in H1. subst a. unfold set_fts, set_entries, wf, index_synced; simpl.
  split; [split|].
  - now rewrite map_id_upd.
  - now rewrite map_date_upd.
  - intros x. rewrite H2. unfold expected_rows. rewrite find_by_id_upd.
    specialize (Hs x). unfold expected_rows in Hs.
    destruct (find_by_id x (entries s)) as [e|]; simpl; auto.
    unfold upd. destruct (p e); auto.
Qed.

Lemma update_entries_other (s : Store) :
  ai_operations (fst (update_entries p f s)) = ai_operations s.
Proof.
  unfold update_entries. destruct (update_rows p f (entries s) (entries_fts s))
    as [[a b] c]. reflexivity.
Qed.

End UpdateRows.

Section DeleteRows.

Variable p : DiaryEntry -> bool.

Lemma delete_rows_spec (es : list DiaryEntry) : forall fts ops,
  let '(es', _, ops', n) := delete_rows p es fts ops in
  es' = filter (fun e => negb (p e)) es /\
  ops' = filter (fun o => negb (existsb (fun e => p e && String.eqb (ai_entry_id o) (id e)) es)) ops /\
  n = length (filter p es).
Proof.
  induction es as [|e es IH]; intros fts ops; simpl.
  - split; auto. split; auto. induction ops as [|o ops IHo]; simpl; congruence.
  - destruct (p e) eqn:Hp; simpl.
    + set (ops1 := filter (fun o => negb (String.eqb (ai_entry_id o) (id e))) ops).
      specialize (IH (trg_entries_ad e fts) ops1).
      destruct (delete_rows p es (trg_entries_ad e fts) ops1) as [[[a b] c] n].
      destruct IH as [-> [-> ->]]. split; auto. split; auto.
      unfold ops1. rewrite filter_filter'. apply filter_ext. intros o.
      destruct (String.eqb (ai_entry_id o) (id e)); reflexivity.
    + specialize (IH fts ops).
      destruct (delete_rows p es fts ops) as [[[a b] c] n].
      destruct IH as [-> [-> ->]]. auto.
Qed.

Lemma delete_rows_fts (es : list DiaryEntry) : forall fts ops,
  NoDup (map id es) ->
  forall x, rows_for x (snd (fst (fst (delete_rows p es fts ops)))) =
    match find_by_id x es with
    | Some e => if p e then [] else rows_for x fts
    | None => rows_for x fts
    end.
Proof.
  induction es as [|e es IH]; intros fts ops Hnd x; simpl; auto.
  inversion Hnd as [|? ? Hnotin Hnd']; subst.
  assert (Hrest : String.eqb (id e) x = true -> find_by_id x es = None).
  { intros Hx. apply String.eqb_eq in Hx. subst. now apply find_by_id_not_in. }
  destruct (p e) eqn:Hp.
  - set (ops1 := filter (fun o => negb (String.eqb (ai_entry_id o) (id e))) ops).
    pose proof (IH (trg_entries_ad e fts) ops1 Hnd' x) as H.
    destruct (delete_rows p es (trg_entries_ad e fts) ops1) as [[[a b] c] n].
    simpl in *. rewrite H, rows_for_ad.
    destruct (String.eqb (id e) x) eqn:Hx; auto. now rewrite (Hrest eq_refl), Hp.
  - pose proof (IH fts ops Hnd' x) as H.
    destruct (delete_rows p es fts ops) as [[[a b] c] n].
    simpl in *. rewrite H.
    destruct (String.eqb (id e) x) eqn:Hx; auto. now rewrite (Hrest eq_refl), Hp.
Qed.

End DeleteRows.

Lemma existsb_false_not_in {A} (g : A -> string) (x : string) (l : list A) :
  existsb (fun y => String.eqb (g y) x) l = false -> ~ In x (map g l).
Proof.
  intros H Hin. apply in_map_iff in Hin as [y [Hy Hin]].
  assert (existsb (fun y => String.eqb (g y) x) l = true).
  { apply existsb_exists. exists y. split; auto. rewrite Hy. apply eqb_refl'. }
  congruence.
Qed.

Lemma NoDup_snoc (l : list string) (x : string) :
  NoDup l -> ~ In x l -> NoDup (l ++ [x]).
Proof.
  intros Hl Hx. apply NoDup_app; auto.
  - constructor; [simpl; tauto | constructor].
  - intros a Ha [<-|[]]. contradiction.
Qed.

Lemma find_by_id_snoc (x : string) (es : list DiaryEntry) (e : DiaryEntry) :
  find_by_id x (es ++ [e]) =
  match find_by_id x es with
  | Some e' => Some e'
  | None => if String.eqb (id e) x then Some e else None
  end.
Proof.
  unfold find_by_id. induction es as [|e' es IH]; simpl; auto.
  destruct (String.eqb (id e') x); auto.
Qed.

Lemma insert_entry_invariant (e : DiaryEntry) (s s' : Store) :
  insert_entry e s = Ok s' -> wf s -> index_synced (entries s) (entries_fts s) ->
  wf s' /\ index_synced (entries s') (entries_fts s') /\
  entries s' = entries s ++ [e] /\ ai_operations s' = ai_operations s.
Proof.
  unfold insert_entry. intros H [Hid Hdate] Hs.
  destruct (existsb (fun x => String.eqb (id x) (id e)) (entries s)) eqn:E1;
    [discriminate|].
  destruct (existsb (fun x => String.eqb (entry_date x) (entry_date e)) (entries s)) eqn:E2;
    [discriminate|].
  injection H as <-. apply existsb_false_not_in in E1, E2.
  unfold wf, index_synced, set_fts, set_entries; simpl.
  rewrite !map_app. simpl. split; [split|split; auto].
  - now apply NoDup_snoc.
  - now apply NoDup_snoc.
  - intros x. rewrite rows_for_ai, Hs. unfold expected_rows.
    rewrite find_by_id_snoc.
    destruct (find_by_id x (entries s)) as [e'|] eqn:Hf.
    + destruct (String.eqb_spec (id e) x) as [<-|]; [|apply app_nil_r].
      apply find_by_id_some in Hf as [Hin Heq]. exfalso. apply E1.
      rewrite <- Heq. now apply in_map.
    + destruct (String.eqb (id e) x); reflexivity.
Qed.

Lemma NoDup_map_filter {A B} (g : A -> B) (q : A -> bool) (l : list A) :
  NoDup (map g l) -> NoDup (map g (filter q l)).
Proof.
  induction l as [|a l IH]; simpl; auto. intros Hnd.
  inversion Hnd as [|? ? Hn Hnd']; subst.
  destruct (q a); simpl; auto. constructor; auto.
  intros Hin. apply Hn. apply in_map_iff in Hin as [y [Hy Hin]].
  apply filter_In in Hin as [Hin _]. rewrite <- Hy. now apply in_map.
Qed.

Lemma find_by_id_filter (p : DiaryEntry -> bool) (x : string) (es : list DiaryEntry) :
  NoDup (map id es) ->
  find_by_id x (filter (fun e => negb (p e)) es) =
  match find_by_id x es with
  | Some e => if p e then None else Some e
  | None => None
  end.
Proof.
  induction es as [|e es IH]; simpl; auto. intros Hnd.
  inversion Hnd as [|? ? Hn Hnd']; subst.
  assert (Hrest : String.eqb (id e) x = true -> find_by_id x es = None).
  { intros Hx. apply String.eqb_eq in Hx. subst. now apply find_by_id_not_in. }
  destruct (p e) eqn:Hp; simpl.
  - rewrite IH by auto. unfold find_by_id at 2; simpl.
    destruct (String.eqb (id e) x) eqn:Hx; auto.
    rewrite (Hrest eq_refl), Hp. reflexivity.
  - unfold find_by_id at 1 2; simpl. destruct (String.eqb (id e) x).
    + now rewrite Hp.
    + fold (find_by_id x (filter (fun e => negb (p e)) es)). fold (find_by_id x es).
      now apply IH.
Qed.

Lemma delete_entries_invariant (p : DiaryEntry -> bool) (s : Store) :
  wf s -> index_synced (entries s) (entries_fts s) ->
  wf (fst (delete_entries p s)) /\
  index_synced (entries (fst (delete_entries p s))) (entries_fts (fst (delete_entries p s))).
Proof.
  intros [Hid Hdate] Hs. unfold delete_entries.
  pose proof (delete_rows_spec p (entries s) (entries_fts s) (ai_operations s)) as Hspec.
  pose proof (delete_rows_fts p (entries s) (entries_fts s) (ai_operations s) Hid) as Hf.
  destruct (delete_rows p (entries s) (entries_fts s) (ai_operations s))
    as [[[a b] c] n]. destruct Hspec as [-> _]. cbn [fst snd] in Hf.
  unfold wf, index_synced, set_fts, set_entries, set_ai_operations; simpl.
  split; [split|].
  - now apply NoDup_map_filter.
  - now apply NoDup_map_filter.
  - intros x. rewrite Hf. unfold expected_rows. rewrite find_by_id_filter by auto.
    specialize (Hs x). unfold expected_rows in Hs.
    destruct (find_by_id x (entries s)) as [e|]; auto. destruct (p e); auto.
Qed.

(** The [f] of every UPDATE issued by [queries.rs] keeps [id] and [entry_date]. *)
Ltac solve_upd_keys := intros; reflexivity.

Lemma upsert_entry_invariant (s s' : Store) d c now fid e :
  upsert_entry s d c now fid = Ok (s', e) ->
  wf s -> index_synced (entries s) (entries_fts s) ->
  wf s' /\ index_synced (entries s') (entries_fts s').
Proof.
  unfold upsert_entry. intros H Hwf Hs.
  match type of H with
  | context [update_entries ?p ?f s] =>
      pose proof (update_entries_invariant p f ltac:(solve_upd_keys)
                    ltac:(solve_upd_keys) s Hwf Hs) as [Hwf1 Hs1];
      destruct (update_entries p f s) as [s1 [|e1 rest]]
  end; cbn [fst] in Hwf1, Hs1.
  - destruct (insert_entry _ s1) as [s2|err] eqn:Hi; simpl in H; [|discriminate].
    injection H as <- _. now destruct (insert_entry_invariant _ _ _ Hi Hwf1 Hs1) as [? [? _]].
  - injection H as <- _. auto.
Qed.

Lemma upsert_entry_mood_invariant (s s' : Store) d m me now fid e :
  upsert_entry_mood s d m me now fid = Ok (s', e) ->
  wf s -> index_synced (entries s) (entries_fts s) ->
  wf s' /\ index_synced (entries s') (entries_fts s').
Proof.
  unfold upsert_entry_mood. intros H Hwf Hs.
  match type of H with
  | context [update_entries ?p ?f s] =>
      pose proof (update_entries_invariant p f ltac:(solve_upd_keys)
                    ltac:(solve_upd_keys) s Hwf Hs) as [Hwf1 Hs1];
      destruct (update_entries p f s) as [s1 [|e1 rest]]
  end; cbn [fst] in Hwf1, Hs1.
  - destruct (insert_entry _ s1) as [s2|err] eqn:Hi; simpl in H; [|discriminate].
    injection H as <- _. now destruct (insert_entry_invariant _ _ _ Hi Hwf1 Hs1) as [? [? _]].
  - injection H as <- _. auto.
Qed.

Lemma import_entries_invariant (es : list DiaryEntry) : forall s s' ow k n,
  import_entries s es ow k = Ok (s', n) ->
  wf s -> index_synced (entries s) (entries_fts s) ->
  wf s' /\ index_synced (entries s') (entries_fts s').
Proof.
  induction es as [|entry es IH]; intros s s' ow k n H Hwf Hs; simpl in H.
  - injection H as <- _. auto.
  - destruct (find_by_date (entry_date entry) (entries s)); [destruct ow|].
    + match type of H with
      | context [update_entries ?p ?f s] =>
          pose proof (update_entries_invariant p f ltac:(solve_upd_keys)
                        ltac:(solve_upd_keys) s Hwf Hs) as [Hwf1 Hs1];
          destruct (update_entries p f s) as [s1 r]
      end. eapply IH; eauto.
    + eapply IH; eauto.
    + destruct (insert_entry entry s) as [s1|err] eqn:Hi; simpl in H; [|discriminate].
      destruct (insert_entry_invariant _ _ _ Hi Hwf Hs) as [Hwf1 [Hs1 _]].
      eapply IH; eauto.
Qed.

Lemma insert_ai_operation_frame (o : AIOperation) (s s' : Store) :
  insert_ai_operation o s = Ok s' ->
  entries s' = entries s /\ entries_fts s' = entries_fts s.
Proof.
  unfold insert_ai_operation. intros H.
  destruct (existsb _ _); [discriminate|].
  destruct (find_by_id _ _); [|discriminate]. injection H as <-. auto.
Qed.

Lemma import_ai_operations_frame (ops : list AIOperation) : forall s s',
  import_ai_operations s ops = Ok s' ->
  entries s' = entries s /\ entries_fts s' = entries_fts s.
Proof.
  induction ops as [|op ops IH]; intros s s' H; simpl in H.
  - injection H as <-. auto.
  - destruct (existsb _ _); [now apply IH|].
    destruct (insert_ai_operation op s) as [s1|err] eqn:Hi; simpl in H; [|discriminate].
    apply insert_ai_operation_frame in Hi as [<- <-]. now apply IH.
Qed.

Lemma import_data_invariant (s s' : Store) data options n :
  import_data s data options = Ok (s', n) ->
  wf s -> index_synced (entries s) (entries_fts s) ->
  wf s' /\ index_synced (entries s') (entries_fts s').
Proof.
  unfold import_data. intros H Hwf Hs.
  destruct (import_entries s (data_entries data) (overwrite options) 0)
    as [[s1 k]|err] eqn:Hi; simpl in H; [|discriminate].
  destruct (import_entries_invariant _ _ _ _ _ _ Hi Hwf Hs) as [Hwf1 Hs1].
  destruct (include_ai_operations options).
  - destruct (import_ai_operations s1 (data_ai_operations data)) as [s2|err] eqn:Ha;
      simpl in H; [|discriminate].
    injection H as <- _. apply import_ai_operations_frame in Ha as [E1 E2].
    unfold wf. rewrite E1, E2. auto.
  - injection H as <- _. auto.
Qed.

Lemma delete_entry_invariant (s s' : Store) d b :
  delete_entry s d = (s', b) ->
  wf s -> index_synced (entries s) (entries_fts s) ->
  wf s' /\ index_synced (entries s') (entries_fts s').
Proof.
  unfold delete_entry. intros H Hwf Hs.
  pose proof (delete_entries_invariant (fun e => String.eqb (entry_date e) d) s Hwf Hs) as Hi.
  destruct (delete_entries _ s) as [s1 n]. injection H as <- _. exact Hi.
Qed.

(** ** C1: the search index stays exactly consistent with [entries] *)

(** Claim C1.  After every successful entry mutation (upsert_entry,
    upsert_entry_mood, delete_entry, import_data) of a well-formed store whose
    index is consistent, the store is still well-formed and every live entry
    has exactly one index row carrying its content and mood, and every index
    row belongs to a live entry. *)
Theorem index_consistent_after_mutation (s s' : Store) :
  wf s -> index_consistent s -> entry_mutation s s' ->
  wf s' /\ index_consistent s'.
Proof.
  intros Hwf Hc Hm. pose proof Hwf as [Hid _].
  apply synced_consistent in Hc; auto.
  assert (H : wf s' /\ index_synced (entries s') (entries_fts s')).
  { destruct Hm as [? ? ? ? ? Hop|? ? ? ? ? ? Hop|? ? Hop|? ? ? Hop].
    - eapply upsert_entry_invariant; eauto.
    - eapply upsert_entry_mood_invariant; eauto.
    - eapply delete_entry_invariant; eauto.
    - eapply import_data_invariant; eauto. }
  destruct H as [Hwf' Hs']. split; auto.
  apply synced_consistent; auto. apply Hwf'.
Qed.

Lemma index_consistent_after_mutation_witness :
  exists s', wf store_one /\ index_consistent store_one /\
             entry_mutation store_one s' /\ wf s' /\ index_consistent s'.
Proof.
  assert (Hwf : wf store_one).
  { split; simpl; repeat constructor; simpl; intuition discriminate. }
  assert (Hc : index_consistent store_one).
  { split; simpl.
    - intros e [<-|[]]. reflexivity.
    - intros r [<-|[]]. eexists; split; [left; reflexivity|reflexivity]. }
  destruct (upsert_entry store_one "2026-01-02" "tea" 20 "u2") as [[s' e]|err] eqn:Hu;
    [|discriminate].
  assert (Hm : entry_mutation store_one s') by (eapply mut_upsert_entry; exact Hu).
  exists s'. split; [exact Hwf|]. split; [exact Hc|]. split; [exact Hm|].
  exact (index_consistent_after_mutation store_one s' Hwf Hc Hm).
Defined.

(** ** Upsert on an existing date *)

Lemma filter_date_unique (d : string) (es : list DiaryEntry) (e : DiaryEntry) :
  NoDup (map entry_date es) -> find_by_date d es = Some e ->
  filter (fun x => String.eqb (entry_date x) d) es = [e].
Proof.
  induction es as [|x es IH]; simpl; [discriminate|]. intros Hnd Hf.
  inversion Hnd as [|? ? Hn Hnd']; subst.
  unfold find_by_date in Hf; simpl in Hf.
  destruct (String.eqb_spec (entry_date x) d) as [Hx|Hx].
  - injection Hf as <-. f_equal.
    destruct (filter (fun x => String.eqb (entry_date x) d) es) as [|y ys] eqn:Hfl; auto.
    assert (Hy : In y (filter (fun x => String.eqb (entry_date x) d) es))
      by (rewrite Hfl; now left).
    apply filter_In in Hy as [Hy Hyd]. apply String.eqb_eq in Hyd.
    exfalso. apply Hn. rewrite Hx, <- Hyd. now apply in_map.
  - now apply IH.
Qed.

Lemma find_by_date_upd (d : string) (f : DiaryEntry -> DiaryEntry)
    (f_date : forall e, entry_date (f e) = entry_date e) (es : list DiaryEntry) :
  find_by_date d (map (upd (fun e => String.eqb (entry_date e) d) f) es) =
  option_map f (find_by_date d es).
Proof.
  induction es as [|e es IH]; auto. unfold find_by_date in *. simpl.
  assert (Hu : entry_date (upd (fun e => String.eqb (entry_date e) d) f e) = entry_date e)
    by (unfold upd; destruct (String.eqb (entry_date e) d); auto).
  rewrite Hu. destruct (String.eqb (entry_date e) d) eqn:He.
  - unfold upd. rewrite He. reflexivity.
  - exact IH.
Qed.

Lemma find_by_date_none_filter (d : string) (es : list DiaryEntry) :
  find_by_date d es = None -> filter (fun x => String.eqb (entry_date x) d) es = [].
Proof.
  unfold find_by_date. induction es as [|x es IH]; simpl; auto.
  destruct (String.eqb (entry_date x) d); [discriminate|auto].
Qed.

Lemma find_by_date_some_date (d : string) (es : list DiaryEntry) (e : DiaryEntry) :
  find_by_date d es = Some e -> entry_date e = d.
Proof.
  unfold find_by_date. intros H. apply find_some in H as [_ H].
  now apply String.eqb_eq.
Qed.

Lemma update_entries_wf (p : DiaryEntry -> bool) (f : DiaryEntry -> DiaryEntry) (s : Store) :
  (forall e, id (f e) = id e) -> (forall e, entry_date (f e) = entry_date e) ->
  wf s ->
  entries (fst (update_entries p f s)) = map (upd p f) (entries s) /\
  snd (update_entries p f s) = map f (filter p (entries s)) /\
  wf (fst (update_entries p f s)).
Proof.
  intros Hfi Hfd [Hid Hdate]. unfold update_entries.
  pose proof (update_rows_spec p f (entries s) (entries_fts s)) as [H1 H2].
  destruct (update_rows p f (entries s) (entries_fts s)) as [[a b] c].
  cbn [fst snd] in *. subst. unfold wf; simpl.
  split; auto. split; auto. split.
  - now rewrite map_id_upd.
  - now rewrite map_date_upd.
Qed.

Lemma insert_entry_wf (e : DiaryEntry) (s s' : Store) :
  insert_entry e s = Ok s' -> wf s ->
  wf s' /\ entries s' = entries s ++ [e] /\ find_by_date (entry_date e) (entries s) = None.
Proof.
  unfold insert_entry. intros H [Hid Hdate].
  destruct (existsb (fun x => String.eqb (id x) (id e)) (entries s)) eqn:E1;
    [discriminate|].
  destruct (existsb (fun x => String.eqb (entry_date x) (entry_date e)) (entries s)) eqn:E2;
    [discriminate|].
  injection H as <-. unfold wf; simpl. rewrite !map_app.
  apply existsb_false_not_in in E1. pose proof E2 as E2'.
  apply existsb_false_not_in in E2.
  split; [split; apply NoDup_snoc; auto|]. split; auto.
  destruct (find_by_date (entry_date e) (entries s)) as [x|] eqn:Hf; auto.
  unfold find_by_date in Hf. apply find_some in Hf as [Hin Hx].
  apply String.eqb_eq in Hx. exfalso. apply E2. rewrite <- Hx. now apply in_map.
Qed.

Lemma find_by_date_snoc_new (d : string) (es : list DiaryEntry) (e : DiaryEntry) :
  find_by_date d es = None -> entry_date e = d -> find_by_date d (es ++ [e]) = Some e.
Proof.
  unfold find_by_date. intros Hn Hd. induction es as [|x es IH]; simpl in *.
  - now rewrite Hd, eqb_refl'.
  - destruct (String.eqb (entry_date x) d); [discriminate|auto].
Qed.

(** The UPDATE branch of both upserts, on a date that is present. *)
Lemma update_existing_date (s : Store) (d : string) (f : DiaryEntry -> DiaryEntry) (e : DiaryEntry) :
  (forall e, id (f e) = id e) -> (forall e, entry_date (f e) = entry_date e) ->
  wf s -> find_by_date d (entries s) = Some e ->
  snd (update_entries (fun x => String.eqb (entry_date x) d) f s) = [f e] /\
  find_by_date d (entries (fst (update_entries (fun x => String.eqb (entry_date x) d) f s)))
    = Some (f e) /\
  wf (fst (update_entries (fun x => String.eqb (entry_date x) d) f s)).
Proof.
  intros Hfi Hfd Hwf Hf.
  destruct (update_entries_wf (fun x => String.eqb (entry_date x) d) f s Hfi Hfd Hwf)
    as [H1 [H2 H3]].
  rewrite H1, H2. split; [|split; auto].
  - rewrite (filter_date_unique d _ e (proj2 Hwf) Hf). reflexivity.
  - rewrite find_by_date_upd by auto. now rewrite Hf.
Qed.

Lemma wf_store_one : wf store_one.
Proof. split; simpl; repeat constructor; simpl; intuition discriminate. Qed.

(** ** C10: [upsert_entry_mood] overwrites both mood fields *)

(** Claim C10.  On a date that has an entry, upsert_entry_mood stores and
    returns the entry with mood and mood_emoji set to exactly the arguments
    (None clears a stored value) and updated_at set to now, keeping id,
    entry_date, content_json and created_at. *)
Theorem upsert_entry_mood_overwrites (s : Store) (d : string) (m me : option string)
    (now : Z) (fid : string) (e : DiaryEntry) :
  wf s -> get_entry s d = Some e ->
  exists s',
    upsert_entry_mood s d m me now fid =
      Ok (s', mkEntry (id e) (entry_date e) (content_json e) m me (created_at e) now) /\
    get_entry s' d =
      Some (mkEntry (id e) (entry_date e) (content_json e) m me (created_at e) now).
Proof.
  intros Hwf Hf. unfold get_entry in *.
  pose proof (update_existing_date s d
    (fun e => mkEntry (id e) (entry_date e) (content_json e) m me (created_at e) now)
    e ltac:(solve_upd_keys) ltac:(solve_upd_keys) Hwf Hf) as [H1 [H2 _]].
  unfold upsert_entry_mood.
  destruct (update_entries _ _ s) as [s1 ret]. cbn [fst snd] in H1, H2. subst ret.
  exists s1. split; auto.
Qed.

Lemma upsert_entry_mood_overwrites_witness :
  wf store_one /\ get_entry store_one "2026-01-01" = Some (mkEntry "u1" "2026-01-01" "coffee" (Some "happy") (Some "h") 10 10) /\
  exists s',
    upsert_entry_mood store_one "2026-01-01" None None 20 "u9" =
      Ok (s', mkEntry "u1" "2026-01-01" "coffee" None None 10 20) /\
    get_entry s' "2026-01-01" = Some (mkEntry "u1" "2026-01-01" "coffee" None None 10 20).
Proof.
  split; [exact wf_store_one|]. split; [reflexivity|].
  exact (upsert_entry_mood_overwrites store_one "2026-01-01" None None 20 "u9"
           (mkEntry "u1" "2026-01-01" "coffee" (Some "happy") (Some "h") 10 10)
           wf_store_one eq_refl).
Defined.

(** ** C8: repeated [upsert_entry] keeps id and created_at *)

Lemma upsert_entry_step (s s' : Store) (d c : string) (now : Z) (fid : string) (e : DiaryEntry) :
  wf s -> upsert_entry s d c now fid = Ok (s', e) ->
  wf s' /\ get_entry s' d = Some e /\ entry_date e = d /\ content_json e = c /\
  updated_at e = now /\
  (forall e0, get_entry s d = Some e0 -> same_identity e e0).
Proof.
  intros Hwf H. unfold get_entry. unfold upsert_entry in H.
  set (f := fun e => mkEntry (id e) (entry_date e) c (mood e) (mood_emoji e) (created_at e) now) in H.
  destruct (find_by_date d (entries s)) as [e0|] eqn:Hf.
  - destruct (update_existing_date s d f e0 ltac:(solve_upd_keys) ltac:(solve_upd_keys) Hwf Hf)
      as [H1 [H2 H3]].
    destruct (update_entries _ f s) as [s1 ret]. cbn [fst snd] in H1, H2, H3. subst ret.
    injection H as <- <-. split; auto. split; auto.
    split; [|split; [|split]]; auto.
    + apply find_by_date_some_date in Hf. exact Hf.
    + intros e1 He1. injection He1 as <-. repeat split.
  - destruct (update_entries_wf (fun x => String.eqb (entry_date x) d) f s
                ltac:(solve_upd_keys) ltac:(solve_upd_keys) Hwf) as [H1 [H2 H3]].
    rewrite (find_by_date_none_filter d _ Hf) in H2.
    destruct (update_entries _ f s) as [s1 ret]. cbn [fst snd] in H1, H2, H3. subst ret.
    destruct (insert_entry _ s1) as [s2|err] eqn:Hi; simpl in H; [|discriminate].
    injection H as <- <-.
    destruct (insert_entry_wf _ _ _ Hi H3) as [Hwf2 [Hes2 Hn]].
    split; auto. split.
    + rewrite Hes2. apply find_by_date_snoc_new; auto.
    + refine (conj eq_refl (conj eq_refl (conj eq_refl _))).
      intros e9 He9. discriminate.
Qed.

Lemma upsert_many_spec (d : string) (calls : list (string * Z * string)) :
  forall s s' es, wf s -> upsert_many s d calls = Ok (s', es) ->
  map content_json es = map (fun c => fst (fst c)) calls /\
  map updated_at es = map (fun c => snd (fst c)) calls /\
  (forall e, In e es -> entry_date e = d) /\
  (forall e0, get_entry s d = Some e0 -> forall e, In e es -> same_identity e e0).
Proof.
  induction calls as [|[[c now] fid] calls IH]; intros s s' es Hwf H; simpl in H.
  - injection H as <- <-. simpl. repeat split; intuition.
  - destruct (upsert_entry s d c now fid) as [[s1 e]|err] eqn:Hu; simpl in H; [|discriminate].
    destruct (upsert_many s1 d calls) as [[s2 es']|err] eqn:Hm; simpl in H; [|discriminate].
    injection H as <- <-.
    destruct (upsert_entry_step _ _ _ _ _ _ _ Hwf Hu) as [Hwf1 [Hg1 [Hd1 [Hc1 [Hn1 Hid1]]]]].
    destruct (IH _ _ _ Hwf1 Hm) as [Ic [In' [Id Iid]]].
    simpl. rewrite Hc1, Hn1, Ic, In'. split; auto. split; auto. split.
    + intros x [<-|Hx]; auto.
    + intros e0 He0 x [<-|Hx]; [now apply Hid1|].
      destruct (Iid e Hg1 x Hx) as [A [B [C D]]].
      destruct (Hid1 e0 He0) as [A' [B' [C' D']]].
      repeat split; congruence.
Qed.

(** Claim C8.  For repeated upsert_entry calls on one date of a well-formed
    store, every entry returned after the first has the id, created_at, mood
    and mood_emoji of the first and the same entry_date; the content_json and
    updated_at of the returned entries are exactly those of the calls. *)
Theorem upsert_keeps_id_and_created_at (s s' : Store) (d : string)
    (calls : list (string * Z * string)) (e0 : DiaryEntry) (rest : list DiaryEntry) :
  wf s -> upsert_many s d calls = Ok (s', e0 :: rest) ->
  (forall e, In e rest -> same_identity e e0 /\ entry_date e = d) /\
  map content_json (e0 :: rest) = map (fun c => fst (fst c)) calls /\
  map updated_at (e0 :: rest) = map (fun c => snd (fst c)) calls.
Proof.
  intros Hwf H.
  destruct (upsert_many_spec d calls s s' (e0 :: rest) Hwf H) as [Hc [Hn [Hd _]]].
  split; [|split; auto].
  destruct calls as [|[[c now] fid] calls]; simpl in H; [discriminate|].
  destruct (upsert_entry s d c now fid) as [[s1 e]|err] eqn:Hu; simpl in H; [|discriminate].
  destruct (upsert_many s1 d calls) as [[s2 es']|err] eqn:Hm; simpl in H; [|discriminate].
  injection H as <- <- <-.
  destruct (upsert_entry_step _ _ _ _ _ _ _ Hwf Hu) as [Hwf1 [Hg1 _]].
  destruct (upsert_many_spec d calls s1 s2 es' Hwf1 Hm) as [_ [_ [Hd' Hid']]].
  intros x Hx. split; [now apply (Hid' e Hg1)|now apply Hd'].
Qed.

Lemma upsert_keeps_id_and_created_at_witness :
  exists s' e0 rest,
    wf empty_store /\
    upsert_many empty_store "2026-01-01" [("a", 1, "u1"); ("b", 2, "u2"); ("c", 3, "u3")]
      = Ok (s', e0 :: rest) /\
    (forall e, In e rest -> same_identity e e0 /\ entry_date e = "2026-01-01") /\
    map content_json (e0 :: rest) = ["a"; "b"; "c"] /\
    map updated_at (e0 :: rest) = [1; 2; 3].
Proof.
  assert (Hwf : wf empty_store) by (split; constructor).
  destruct (upsert_many empty_store "2026-01-01" [("a", 1, "u1"); ("b", 2, "u2"); ("c", 3, "u3")])
    as [[s' [|e0 rest]]|err] eqn:H; try discriminate.
  exists s', e0, rest. split; [exact Hwf|]. split; [reflexivity|].
  exact (upsert_keeps_id_and_created_at empty_store s' "2026-01-01" _ e0 rest Hwf H).
Defined.

(** ** C9: [delete_entry] cascades and reports presence *)

Lemma delete_rows_nomatch (p : DiaryEntry -> bool) (es : list DiaryEntry) :
  (forall e, In e es -> p e = false) ->
  forall fts ops, delete_rows p es fts ops = (es, fts, ops, 0%nat).
Proof.
  induction es as [|e es IH]; intros Hp fts ops; simpl; auto.
  rewrite (Hp e (or_introl eq_refl)). rewrite IH; auto.
  intros x Hx. apply Hp. now right.
Qed.

Lemma existsb_and_filter {A} (p g : A -> bool) (l : list A) :
  existsb (fun x => p x && g x) l = existsb g (filter p l).
Proof.
  induction l as [|a l IH]; simpl; auto. destruct (p a); simpl; rewrite IH; auto.
Qed.

Lemma find_by_date_filter_out (d : string) (es : list DiaryEntry) :
  find_by_date d (filter (fun x => negb (String.eqb (entry_date x) d)) es) = None.
Proof.
  unfold find_by_date. induction es as [|x es IH]; simpl; auto.
  destruct (String.eqb (entry_date x) d) eqn:Hx; simpl; auto. rewrite Hx. auto.
Qed.

(** Claim C9.  On a well-formed store, delete_entry for date d returns true
    exactly when an entry e for d was present; it then removes e, every
    AIOperation whose entry_id is e's id, and e's index rows (other index
    rows untouched).  When no entry for d was present it returns false and
    leaves the store unchanged. *)
Theorem delete_entry_cascade (s s' : Store) (d : string) (b : bool) :
  wf s -> delete_entry s d = (s', b) ->
  match get_entry s d with
  | Some e =>
      b = true /\ get_entry s' d = None /\
      entries s' = filter (fun x => negb (String.eqb (entry_date x) d)) (entries s) /\
      ai_operations s' =
        filter (fun o => negb (String.eqb (ai_entry_id o) (id e))) (ai_operations s) /\
      rows_for (id e) (entries_fts s') = [] /\
      (forall x, x <> id e -> rows_for x (entries_fts s') = rows_for x (entries_fts s))
  | None => b = false /\ s' = s
  end.
Proof.
  intros [Hid Hdate] H. unfold delete_entry, delete_entries, get_entry in *.
  set (p := fun e => String.eqb (entry_date e) d) in H.
  destruct (find_by_date d (entries s)) as [e|] eqn:Hf.
  - pose proof (filter_date_unique d _ e Hdate Hf) as Hu. fold p in Hu.
    pose proof (delete_rows_spec p (entries s) (entries_fts s) (ai_operations s)) as Hspec.
    pose proof (delete_rows_fts p (entries s) (entries_fts s) (ai_operations s) Hid) as Hfts.
    destruct (delete_rows p (entries s) (entries_fts s) (ai_operations s)) as [[[a bb] c] n].
    destruct Hspec as [Ha [Hc Hn]]. cbn [fst snd] in Hfts.
    injection H as <- <-. unfold set_ai_operations, set_fts, set_entries; simpl.
    rewrite Hn, Hu. simpl. split; auto.
    assert (Hin : In e (entries s)) by (unfold find_by_date in Hf; now apply find_some in Hf).
    assert (Hpe : p e = true) by (unfold p; now rewrite (find_by_date_some_date _ _ _ Hf), eqb_refl').
    split; [rewrite Ha; apply find_by_date_filter_out|].
    split; [exact Ha|]. split.
    + rewrite Hc. apply filter_ext. intros o. rewrite existsb_and_filter, Hu. simpl.
      now rewrite orb_false_r.
    + split.
      * rewrite Hfts, (find_by_id_in _ _ Hid Hin), Hpe. reflexivity.
      * intros x Hx. rewrite Hfts.
        destruct (find_by_id x (entries s)) as [e'|] eqn:He'; auto.
        destruct (p e') eqn:Hpe'; auto.
        apply find_by_id_some in He' as [Hin' Hid'].
        assert (Hin2 : In e' (filter p (entries s))) by (apply filter_In; auto).
        rewrite Hu in Hin2. destruct Hin2 as [<-|[]]. congruence.
  - rewrite (delete_rows_nomatch p (entries s)) in H.
    + injection H as <- <-. split; auto. destruct s; reflexivity.
    + intros e He. unfold p. unfold find_by_date in Hf.
      exact (find_none _ _ Hf e He).
Qed.

Lemma delete_entry_cascade_witness :
  wf store_with_op /\
  delete_entry store_with_op "2026-01-01" = (fst (delete_entry store_with_op "2026-01-01"), true) /\
  ai_operations (fst (delete_entry store_with_op "2026-01-01")) = [] /\
  entries_fts (fst (delete_entry store_with_op "2026-01-01")) = [] /\
  (fst (delete_entry store_with_op "2026-02-01"), snd (delete_entry store_with_op "2026-02-01"))
    = (store_with_op, false).
Proof.
  assert (Hwf : wf store_with_op) by exact wf_store_one.
  pose proof (delete_entry_cascade store_with_op _ "2026-01-01" true Hwf eq_refl) as H1.
  pose proof (delete_entry_cascade store_with_op _ "2026-02-01" false Hwf eq_refl) as H2.
  simpl in H1, H2. destruct H2 as [_ H2].
  split; [exact Hwf|]. split; [reflexivity|]. split; [reflexivity|]. split; [reflexivity|].
  simpl. rewrite H2. reflexivity.
Defined.

(** ** C5, C6: the streak algorithms *)

Lemma valid_dates_app (parse_date : string -> option Z) (l1 l2 : list string) :
  valid_dates parse_date (l1 ++ l2) = valid_dates parse_date l1 ++ valid_dates parse_date l2.
Proof.
  induction l1 as [|d l1 IH]; simpl; auto.
  destruct (parse_date d); simpl; rewrite IH; auto.
Qed.

Lemma valid_dates_rev (parse_date : string -> option Z) (l : list string) :
  valid_dates parse_date (rev l) = rev (valid_dates parse_date l).
Proof.
  induction l as [|d l IH]; simpl; auto.
  rewrite valid_dates_app, IH. simpl.
  destruct (parse_date d); simpl; auto. apply app_nil_r.
Qed.

Lemma current_streak_loop_valid (parse_date : string -> option Z) (ds : list string) :
  forall check_date k,
  current_streak_loop parse_date check_date k ds =
  spec_current_walk check_date k (valid_dates parse_date ds).
Proof.
  induction ds as [|d ds IH]; intros c k; simpl; auto.
  destruct (parse_date d) as [ed|]; simpl; auto.
  destruct (ed =? c); auto. destruct (ed <? c); auto.
Qed.





Lemma longest_streak_loop_valid (parse_date : string -> option Z) (ds : list string) :
  forall prev best run,
  longest_streak_loop parse_date (Some prev) best run ds =
  spec_longest_scan prev best run (valid_dates parse_date ds).
Proof.
  induction ds as [|d ds IH]; intros prev best run; simpl; auto.
  destruct (parse_date d) as [ed|]; simpl; auto.
  replace (ed - prev =? 1) with (ed =? prev + 1).
  - destruct (ed =? prev + 1); apply IH.
  - destruct (Z.eqb_spec ed (prev + 1)); destruct (Z.eqb_spec (ed - prev) 1); auto; lia.
Qed.

Lemma longest_streak_loop_start (parse_date : string -> option Z) (ds : list string) :
  forall best run,
  longest_streak_loop parse_date None best run ds =
  match valid_dates parse_date ds with
  | [] => Z.max best run
  | x :: rest => spec_longest_scan x best 1 rest
  end.
Proof.
  induction ds as [|d ds IH]; intros best run; simpl; auto.
  destruct (parse_date d) as [ed|]; simpl; auto.
  apply longest_streak_loop_valid.
Qed.




(** ** C7: re-running the migrations is a no-op *)

Lemma fold_max_bounds (l : list Z) : forall a,
  a <= fold_left Z.max l a /\ (forall x, In x l -> x <= fold_left Z.max l a).
Proof.
  induction l as [|y l IH]; intros a; simpl; [split; [lia|tauto]|].
  destruct (IH (Z.max a y)) as [H1 H2]. split; [lia|].
  intros x [<-|Hx]; [lia|auto].
Qed.

Lemma record_version_current (v t : Z) (s s' : Store) :
  record_version v t s = Ok s' -> v <= current_version s'.
Proof.
  unfold record_version. destruct (schema_migrations s) as [rows|]; [|discriminate].
  destruct (existsb _ rows); [discriminate|]. intros H. injection H as <-.
  unfold current_version; simpl. rewrite map_app. simpl.
  apply (proj2 (fold_max_bounds _ 0)). apply in_or_app. right. now left.
Qed.

Lemma current_version_positive_table (s : Store) :
  0 < current_version s -> create_schema_migrations s = s.
Proof.
  unfold current_version, create_schema_migrations.
  destruct (schema_migrations s); [reflexivity|lia].
Qed.

Lemma run_at_latest (s : Store) (now : Z -> Z) :
  latest_version <= current_version s -> run s now = Ok s.
Proof.
  unfold latest_version. intros Hv. unfold run.
  rewrite (current_version_positive_table s) by lia.
  assert (H1 : (current_version s <? 1) = false) by (apply Z.ltb_ge; lia).
  assert (H2 : (current_version s <? 2) = false) by (apply Z.ltb_ge; lia).
  assert (H3 : (current_version s <? 3) = false) by (apply Z.ltb_ge; lia).
  assert (H4 : (current_version s <? 4) = false) by (apply Z.ltb_ge; lia).
  assert (H5 : (current_version s <? 5) = false) by (apply Z.ltb_ge; lia).
  rewrite H1, H2, H3, H4, H5. reflexivity.
Qed.

Ltac peel_bind H :=
  match type of H with
  | bind ?m _ = Ok _ =>
      let E := fresh "E" in
      destruct m eqn:E; simpl in H; [|discriminate]
  end.

Lemma run_reaches_latest (s s1 : Store) (now : Z -> Z) :
  run s now = Ok s1 -> latest_version <= current_version s1.
Proof.
  unfold run, latest_version. intros H.
  set (s0 := create_schema_migrations s) in H.
  destruct (Z.ltb_spec (current_version s0) 5) as [Hlt|Hge].
  - peel_bind H. peel_bind H. peel_bind H. peel_bind H.
    destruct (record_version 5 (now 5) _) as [s5|err] eqn:Hr; simpl in H; [|discriminate].
    injection H as <-. now apply record_version_current in Hr.
  - assert (H1 : (current_version s0 <? 1) = false) by (apply Z.ltb_ge; lia).
    assert (H2 : (current_version s0 <? 2) = false) by (apply Z.ltb_ge; lia).
    assert (H3 : (current_version s0 <? 3) = false) by (apply Z.ltb_ge; lia).
    assert (H4 : (current_version s0 <? 4) = false) by (apply Z.ltb_ge; lia).
    assert (H5 : (current_version s0 <? 5) = false) by (apply Z.ltb_ge; lia).
    rewrite H1, H2, H3, H4 in H. simpl in H. injection H as <-. exact Hge.
Qed.

(** Claim C7.  Whenever migrations::run succeeds on a store, running it
    again on the resulting store (at any clock) succeeds and leaves the
    store, schema and recorded versions included, identical. *)
Theorem run_twice_is_noop (s s1 : Store) (now now' : Z -> Z) :
  run s now = Ok s1 -> run s1 now' = Ok s1.
Proof.
  intros H. apply run_at_latest. eapply run_reaches_latest. exact H.
Qed.

Lemma run_twice_is_noop_witness :
  run empty_store (fun v => 1000 + v) = Ok migrated_once /\
  run migrated_once (fun v => 2000 + v) = Ok migrated_once /\
  current_version migrated_once = 5.
Proof.
  assert (H : run empty_store (fun v => 1000 + v) = Ok migrated_once)
    by (vm_compute; reflexivity).
  split; [exact H|]. split.
  - exact (run_twice_is_noop empty_store migrated_once _ (fun v => 2000 + v) H).
  - vm_compute. reflexivity.
Defined.

Lemma existsb_key_in {A : Type} (g : A -> string) (v : string) (l : list A) :
  existsb (fun x => String.eqb (g x) v) l = true <-> In v (map g l).
Proof.
  rewrite existsb_exists, in_map_iff. split.
  - intros [x [Hx Hv]]. apply String.eqb_eq in Hv. eauto.
  - intros [x [Hv Hx]]. exists x. split; auto. subst. apply eqb_refl'.
Qed.

(** ** C2: [import_data] and failing records *)


Lemma find_by_date_none_iff (d : string) (es : list DiaryEntry) :
  find_by_date d es = None <-> ~ In d (map entry_date es).
Proof.
  unfold find_by_date. induction es as [|e es IH]; simpl; [tauto|].
  destruct (String.eqb_spec (entry_date e) d) as [<-|Hne].
  - split; [discriminate|]. intros H. exfalso. apply H. now left.
  - rewrite IH. split; intros H H'.
    + destruct H' as [H'|H']; [congruence|auto].
    + apply H. now right.
Qed.



Lemma import_entries_error (es : list DiaryEntry) (ow : bool) :
  forall s k e, import_entries s es ow k = Err e ->
  exists entry st, In entry es /\ insert_entry entry st = Err e.
Proof.
  induction es as [|entry es IH]; intros s k e H; simpl in H; [discriminate|].
  destruct (find_by_date (entry_date entry) (entries s)); [destruct ow|].
  - destruct (update_entries _ _ s) as [s1 r].
    destruct (IH _ _ _ H) as [x [st [Hx Hst]]]. exists x, st. split; auto. now right.
  - destruct (IH _ _ _ H) as [x [st [Hx Hst]]]. exists x, st. split; auto. now right.
  - destruct (insert_entry entry s) as [s1|err] eqn:Hi; simpl in H.
    + destruct (IH _ _ _ H) as [x [st [Hx Hst]]]. exists x, st. split; auto. now right.
    + injection H as <-. exists entry, s. split; auto. now left.
Qed.

Lemma import_ai_operations_error (ops : list AIOperation) :
  forall s e, import_ai_operations s ops = Err e ->
  exists op st, In op ops /\ insert_ai_operation op st = Err e.
Proof.
  induction ops as [|op ops IH]; intros s e H; simpl in H; [discriminate|].
  destruct (existsb _ _).
  - destruct (IH _ _ H) as [x [st [Hx Hst]]]. exists x, st. split; auto. now right.
  - destruct (insert_ai_operation op s) as [s1|err] eqn:Hi; simpl in H.
    + destruct (IH _ _ H) as [x [st [Hx Hst]]]. exists x, st. split; auto. now right.
    + injection H as <-. exists op, s. split; auto. now left.
Qed.










(** ** C3: order of the search results *)

(** Claim C3 (code bug).  For any MATCH predicate and any relevance measure
    for which both entries match and the entry of 2026-01-01 is strictly
    more relevant, search_entries lists the less relevant entry first:
    [bm25()] is the negated relevance, and [ORDER BY bm25 DESC] sorts it from
    the worst match to the best. *)
Theorem search_entries_least_relevant_first
    (fts_match : string -> FtsRow -> bool) (relevance : string -> FtsRow -> Z)
    (q : string)
    (Hm1 : fts_match q (project entry_twice) = true)
    (Hm2 : fts_match q (project entry_once) = true)
    (Hrel : relevance q (project entry_once) < relevance q (project entry_twice)) :
  search_entries fts_match relevance store_search q = [entry_once; entry_twice].
Proof.
  unfold search_entries, store_search, set_fts, set_entries. cbn [entries entries_fts].
  cbn [flat_map filter]. rewrite !eqb_refl'.
  change (fts_entry_id (project entry_once) =? id entry_twice)%string with false.
  change (fts_entry_id (project entry_twice) =? id entry_once)%string with false.
  rewrite Hm1, Hm2. cbn [andb map app].
  unfold sort_rows. cbn [fold_right insert_row]. unfold row_before, bm25. cbn [fst snd].
  destruct (Z.ltb_spec (- relevance q (project entry_twice))
              (- relevance q (project entry_once))) as [_|Hge]; [reflexivity|lia].
Qed.

Lemma search_entries_least_relevant_first_witness :
  term_match "coffee" (project entry_twice) = true /\
  term_match "coffee" (project entry_once) = true /\
  term_frequency "coffee" (project entry_once) < term_frequency "coffee" (project entry_twice) /\
  search_entries term_match term_frequency store_search "coffee" = [entry_once; entry_twice].
Proof.
  assert (H1 : term_match "coffee" (project entry_twice) = true) by reflexivity.
  assert (H2 : term_match "coffee" (project entry_once) = true) by reflexivity.
  assert (H3 : term_frequency "coffee" (project entry_once) <
               term_frequency "coffee" (project entry_twice)) by (vm_compute; reflexivity).
  split; [exact H1|]. split; [exact H2|]. split; [exact H3|].
  exact (search_entries_least_relevant_first term_match term_frequency "coffee" H1 H2 H3).
Defined.

(** ** C4: [upsert_entry] under concurrent callers *)

Lemma update_rows_none (p : DiaryEntry -> bool) (f : DiaryEntry -> DiaryEntry)
    (es : list DiaryEntry) :
  forall fts, (forall e, In e es -> p e = false) -> update_rows p f es fts = (es, fts, []).
Proof.
  induction es as [|e es IH]; intros fts Hp; simpl; auto.
  rewrite (Hp e (or_introl eq_refl)), IH; auto. intros x Hx. apply Hp. now right.
Qed.

Lemma update_entries_absent (s : Store) (d : string) (f : DiaryEntry -> DiaryEntry) :
  find_by_date d (entries s) = None ->
  update_entries (fun e => String.eqb (entry_date e) d) f s = (s, []).
Proof.
  intros Hn. apply find_by_date_none_iff in Hn. unfold update_entries.
  rewrite update_rows_none.
  - destruct s. reflexivity.
  - intros e He. destruct (String.eqb_spec (entry_date e) d) as [<-|]; auto.
    exfalso. apply Hn, in_map, He.
Qed.

Lemma step_update_absent (s : Store) (c : UpsertCall) :
  call_pc c = AtUpdate -> find_by_date (call_date c) (entries s) = None ->
  upsert_step s c = (s, set_pc c AtInsert).
Proof.
  intros Hpc Hn. unfold upsert_step. rewrite Hpc, update_entries_absent; auto.
Qed.

Lemma step_update_present (s : Store) (c : UpsertCall) (e : DiaryEntry) :
  call_pc c = AtUpdate -> find_by_date (call_date c) (entries s) = Some e ->
  exists s' e', upsert_step s c = (s', set_pc c (Finished (Ok e'))).
Proof.
  intros Hpc Hf. unfold upsert_step. rewrite Hpc.
  match goal with |- context [update_entries ?p ?f s] =>
    pose proof (update_rows_spec p f (entries s) (entries_fts s)) as [_ H2];
    assert (Hr : snd (update_entries p f s) = map f (filter p (entries s)))
      by (unfold update_entries;
          destruct (update_rows p f (entries s) (entries_fts s)) as [[x y] z];
          exact H2);
    destruct (update_entries p f s) as [s1 ret]
  end.
  cbn [snd] in Hr. subst ret.
  unfold find_by_date in Hf. apply find_some in Hf as [Hin Hd].
  destruct (filter _ (entries s)) as [|x xs] eqn:Hfl.
  - assert (In e (filter (fun e0 => String.eqb (entry_date e0) (call_date c)) (entries s)))
      by (apply filter_In; auto).
    rewrite Hfl in H. destruct H.
  - simpl. eauto.
Qed.

Lemma step_insert_fresh (s : Store) (c : UpsertCall) :
  call_pc c = AtInsert -> find_by_date (call_date c) (entries s) = None ->
  ~ In (call_fresh_id c) (map id (entries s)) ->
  upsert_step s c =
    (set_fts (trg_entries_ai (inserted_entry c) (entries_fts s))
       (set_entries (entries s ++ [inserted_entry c]) s),
     set_pc c (Finished (Ok (inserted_entry c)))).
Proof.
  intros Hpc Hn Hi. apply find_by_date_none_iff in Hn.
  unfold upsert_step. rewrite Hpc. unfold insert_entry. cbn [id entry_date].
  destruct (existsb (fun x => String.eqb (id x) (call_fresh_id c)) (entries s)) eqn:E1.
  { apply existsb_key_in in E1. contradiction. }
  destruct (existsb (fun x => String.eqb (entry_date x) (call_date c)) (entries s)) eqn:E2.
  { apply existsb_key_in in E2. contradiction. }
  reflexivity.
Qed.

Lemma step_insert_taken (s : Store) (c : UpsertCall) :
  call_pc c = AtInsert -> In (call_date c) (map entry_date (entries s)) ->
  ~ In (call_fresh_id c) (map id (entries s)) ->
  upsert_step s c = (s, set_pc c (Finished (Err (UniqueViolation "entries" "entry_date")))).
Proof.
  intros Hpc Hd Hi. unfold upsert_step. rewrite Hpc. unfold insert_entry. cbn [id entry_date].
  destruct (existsb (fun x => String.eqb (id x) (call_fresh_id c)) (entries s)) eqn:E1.
  { apply existsb_key_in in E1. contradiction. }
  apply existsb_key_in in Hd. rewrite Hd. reflexivity.
Qed.

(** One caller runs both statements before the other starts: both succeed. *)
Lemma serial_upserts_succeed (s : Store) (x y : UpsertCall) :
  call_pc x = AtUpdate -> call_pc y = AtUpdate -> call_date x = call_date y ->
  find_by_date (call_date x) (entries s) = None ->
  ~ In (call_fresh_id x) (map id (entries s)) ->
  exists s1 s2 e2,
    upsert_step s x = (s, set_pc x AtInsert) /\
    upsert_step s (set_pc x AtInsert) = (s1, set_pc x (Finished (Ok (inserted_entry x)))) /\
    upsert_step s1 y = (s2, set_pc y (Finished (Ok e2))) /\
    upsert_step s2 (set_pc y (Finished (Ok e2))) = (s2, set_pc y (Finished (Ok e2))).
Proof.
  intros Hx Hy Hxy Hn Hi.
  rewrite (step_update_absent s x Hx Hn).
  rewrite (step_insert_fresh s (set_pc x AtInsert) eq_refl Hn Hi).
  destruct (step_update_present
              (set_fts (trg_entries_ai (inserted_entry (set_pc x AtInsert)) (entries_fts s))
                 (set_entries (entries s ++ [inserted_entry (set_pc x AtInsert)]) s))
              y (inserted_entry (set_pc x AtInsert)) Hy) as [s2 [e2 Hs2]].
  { unfold set_fts, set_entries. cbn [entries]. rewrite <- Hxy.
    apply find_by_date_snoc_new; auto. }
  do 3 eexists. split; [reflexivity|]. split; [reflexivity|]. split; [exact Hs2|].
  reflexivity.
Qed.

(** Claim C4, refuted: upsert_entry runs its UPDATE and its INSERT as two
    separately committed statements, with no transaction around them.  Two
    callers saving the same new date can both find no row with the UPDATE;
    the second INSERT then fails on the UNIQUE constraint of entry_date, an
    outcome neither serial order of the two calls produces. *)
Lemma upsert_entry_not_atomic : ~ serializable migrated_once call_a call_b.
Proof.
  intros H. specialize (H interleaved ltac:(vm_compute; reflexivity)).
  vm_compute in H. destruct H as [H|H]; discriminate H.
Qed.

Lemma find_by_date_upd_other (d d' : string) (f : DiaryEntry -> DiaryEntry)
    (f_date : forall e, entry_date (f e) = entry_date e) (es : list DiaryEntry) :
  d' <> d ->
  find_by_date d' (map (upd (fun e => String.eqb (entry_date e) d) f) es) = find_by_date d' es.
Proof.
  intros Hne. induction es as [|e es IH]; auto. unfold find_by_date in *. simpl.
  change (upd (fun e => String.eqb (entry_date e) d) f e)
    with (if String.eqb (entry_date e) d then f e else e).
  destruct (String.eqb_spec (entry_date e) d) as [He|He].
  - rewrite f_date. destruct (String.eqb_spec (entry_date e) d'); [congruence|exact IH].
  - destruct (String.eqb (entry_date e) d'); [reflexivity|exact IH].
Qed.

Lemma find_by_date_snoc_other (d : string) (es : list DiaryEntry) (e : DiaryEntry) :
  entry_date e <> d -> find_by_date d (es ++ [e]) = find_by_date d es.
Proof.
  intros Hne. unfold find_by_date. induction es as [|x es IH]; simpl.
  - destruct (String.eqb_spec (entry_date e) d); [congruence|reflexivity].
  - destruct (String.eqb (entry_date x) d); [reflexivity|exact IH].
Qed.

Lemma upsert_step_fields (s : Store) (c : UpsertCall) :
  call_date (snd (upsert_step s c)) = call_date c /\
  call_content (snd (upsert_step s c)) = call_content c /\
  call_now (snd (upsert_step s c)) = call_now c.
Proof.
  unfold upsert_step. destruct (call_pc c); cbv zeta.
  - destruct (update_entries _ _ s) as [s1 [|e r]]; repeat split.
  - destruct (insert_entry _ s); repeat split.
  - repeat split.
Qed.

(** Each statement of a call keeps the constraints and the index, and a
    reader never sees a half-written row. *)
Lemma upsert_step_view (a b c : UpsertCall) (s0 s : Store) :
  call_date c = call_date a ->
  (call_content c = call_content a /\ call_now c = call_now a) \/
  (call_content c = call_content b /\ call_now c = call_now b) ->
  wf s -> index_synced (entries s) (entries_fts s) -> fully_written a b s0 s ->
  wf (fst (upsert_step s c)) /\
  index_synced (entries (fst (upsert_step s c))) (entries_fts (fst (upsert_step s c))) /\
  fully_written a b s0 (fst (upsert_step s c)).
Proof.
  intros Hd Hc Hwf Hsy [Hoth Hview].
  unfold upsert_step. destruct (call_pc c); cbv zeta.
  - match goal with |- context [update_entries ?p ?f s] =>
      assert (Hfw : wf (fst (update_entries p f s)) /\
                    index_synced (entries (fst (update_entries p f s)))
                      (entries_fts (fst (update_entries p f s))) /\
                    fully_written a b s0 (fst (update_entries p f s)));
      [ pose proof (update_entries_invariant p f ltac:(solve_upd_keys) ltac:(solve_upd_keys)
                      s Hwf Hsy) as [Hw1 Hs1];
        pose proof (update_entries_wf p f s ltac:(solve_upd_keys) ltac:(solve_upd_keys) Hwf)
          as [He1 _];
        split; [exact Hw1|]; split; [exact Hs1|]; split;
        [ intros d' Hd'; unfold get_entry; rewrite He1;
          rewrite find_by_date_upd_other by first [solve_upd_keys | congruence];
          apply Hoth, Hd'
        | destruct (find_by_date (call_date c) (entries s)) as [e|] eqn:Hf;
          [ destruct (update_existing_date s (call_date c) f e ltac:(solve_upd_keys)
                        ltac:(solve_upd_keys) Hwf Hf) as [_ [Hg _]];
            unfold get_entry; rewrite <- Hd, Hg; cbn [content_json updated_at]; exact Hc
          | rewrite update_entries_absent by exact Hf; exact Hview ] ]
      | destruct (update_entries p f s) as [s1 [|e1 r]]; exact Hfw ]
    end.
  - destruct (insert_entry _ s) as [s2|err] eqn:Hi; cbn [fst].
    + pose proof (insert_entry_invariant _ s s2 Hi Hwf Hsy) as [Hw2 [Hs2 [He2 _]]].
      pose proof (insert_entry_wf _ s s2 Hi Hwf) as [_ [_ Hn]].
      split; [exact Hw2|]. split; [exact Hs2|]. split.
      * intros d' Hd'. unfold get_entry. rewrite He2, find_by_date_snoc_other;
          [apply Hoth, Hd'|cbn; congruence].
      * unfold get_entry. rewrite He2, <- Hd.
        rewrite find_by_date_snoc_new; [|exact Hn|reflexivity]. cbn. exact Hc.
    + split; [exact Hwf|]. split; [exact Hsy|]. split; [exact Hoth|exact Hview].
  - split; [exact Hwf|]. split; [exact Hsy|]. split; [exact Hoth|exact Hview].
Qed.

Lemma run_schedule_view (a b : UpsertCall) (s0 : Store) (sched : list bool) :
  call_date b = call_date a ->
  forall s x y,
  call_date x = call_date a -> call_content x = call_content a -> call_now x = call_now a ->
  call_date y = call_date a -> call_content y = call_content b -> call_now y = call_now b ->
  wf s -> index_synced (entries s) (entries_fts s) -> fully_written a b s0 s ->
  let '(s', _, _) := run_schedule s x y sched in
  wf s' /\ index_synced (entries s') (entries_fts s') /\ fully_written a b s0 s'.
Proof.
  intros Hba. induction sched as [|[|] sched IH];
    intros s x y Hxd Hxc Hxn Hyd Hyc Hyn Hw Hs Hv; cbn [run_schedule].
  - auto.
  - pose proof (upsert_step_fields s y) as [Fd [Fc Fn]].
    pose proof (upsert_step_view a b y s0 s Hyd (or_intror (conj Hyc Hyn)) Hw Hs Hv)
      as [W [S V]].
    destruct (upsert_step s y) as [s' y']. cbn [fst snd] in *.
    apply IH; try assumption; congruence.
  - pose proof (upsert_step_fields s x) as [Fd [Fc Fn]].
    pose proof (upsert_step_view a b x s0 s Hxd (or_introl (conj Hxc Hxn)) Hw Hs Hv)
      as [W [S V]].
    destruct (upsert_step s x) as [s' x']. cbn [fst snd] in *.
    apply IH; try assumption; congruence.
Qed.

(** Both calls past their UPDATE on an absent date: the INSERT that runs
    first succeeds, the other fails on entry_date and changes nothing. *)
Lemma racing_inserts (s : Store) (x y : UpsertCall) :
  call_pc x = AtInsert -> call_pc y = AtInsert -> call_date y = call_date x ->
  find_by_date (call_date x) (entries s) = None ->
  ~ In (call_fresh_id x) (map id (entries s)) -> ~ In (call_fresh_id y) (map id (entries s)) ->
  call_fresh_id x <> call_fresh_id y ->
  upsert_step s x =
    (set_fts (trg_entries_ai (inserted_entry x) (entries_fts s))
       (set_entries (entries s ++ [inserted_entry x]) s),
     set_pc x (Finished (Ok (inserted_entry x)))) /\
  upsert_step (set_fts (trg_entries_ai (inserted_entry x) (entries_fts s))
                 (set_entries (entries s ++ [inserted_entry x]) s)) y =
    (set_fts (trg_entries_ai (inserted_entry x) (entries_fts s))
       (set_entries (entries s ++ [inserted_entry x]) s),
     set_pc y (Finished (Err (UniqueViolation "entries" "entry_date")))).
Proof.
  intros Hx Hy Hyx Hn Hix Hiy Hxy. split.
  - apply step_insert_fresh; auto.
  - apply step_insert_taken; auto.
    + unfold set_fts, set_entries. cbn [entries]. rewrite map_app, in_app_iff.
      right. left. cbn. congruence.
    + unfold set_fts, set_entries. cbn [entries]. rewrite map_app, in_app_iff.
      intros [H|[H|[]]]; [contradiction|]. apply Hxy. exact H.
Qed.

(** Claim C4, amended.  upsert_entry runs its UPDATE and its INSERT as two
    separately committed statements, with no transaction around them.  For
    two callers saving the same absent date with distinct fresh ids:
    - run one after the other, in either order, both succeed;
    - in each of the four schedules where both UPDATEs run before either
      INSERT, the caller whose INSERT runs first succeeds and the other
      fails with a uniqueness violation on entry_date, the store holding
      exactly the first caller's row and its index row;
    - so the two calls are not serializable.
    Each statement is atomic, so no partial effect is ever visible: after
    every statement of every schedule the constraints and the index hold,
    other dates are untouched, and the date has no row or a row whose
    content and updated_at come from one same call. *)
Theorem upsert_entry_interleaving_fails (s : Store) (d ca cb : string) (na nb : Z)
    (ia ib : string)
    (Hd : get_entry s d = None)
    (Hia : ~ In ia (map id (entries s))) (Hib : ~ In ib (map id (entries s)))
    (Hab : ia <> ib) :
  let a := mkUpsertCall d ca na ia AtUpdate in
  let b := mkUpsertCall d cb nb ib AtUpdate in
  let ea := mkEntry ia d ca None None na na in
  let eb := mkEntry ib d cb None None nb nb in
  (exists s1 ea' eb',
     outcome (run_schedule s a b [false; false; true; true]) =
       (s1, Finished (Ok ea'), Finished (Ok eb'))) /\
  (exists s1 ea' eb',
     outcome (run_schedule s a b [true; true; false; false]) =
       (s1, Finished (Ok ea'), Finished (Ok eb'))) /\
  (forall u v : bool,
     outcome (run_schedule s a b [u; negb u; v; negb v]) =
       if v then
         (set_fts (trg_entries_ai eb (entries_fts s)) (set_entries (entries s ++ [eb]) s),
          Finished (Err (UniqueViolation "entries" "entry_date")), Finished (Ok eb))
       else
         (set_fts (trg_entries_ai ea (entries_fts s)) (set_entries (entries s ++ [ea]) s),
          Finished (Ok ea), Finished (Err (UniqueViolation "entries" "entry_date")))) /\
  ~ serializable s a b /\
  (wf s -> index_consistent s -> forall sched,
     let '(s', _, _) := run_schedule s a b sched in
     wf s' /\ index_consistent s' /\ fully_written a b s s').
Proof.
  intros a b ea eb. unfold get_entry in Hd.
  assert (Hab1 : exists s1 ea' eb',
     outcome (run_schedule s a b [false; false; true; true]) =
       (s1, Finished (Ok ea'), Finished (Ok eb'))).
  { destruct (serial_upserts_succeed s a b eq_refl eq_refl eq_refl Hd Hia)
      as [s1 [s2 [e2 [H1 [H2 [H3 H4]]]]]].
    cbn [run_schedule]. rewrite H1, H2, H3, H4. simpl. eauto. }
  assert (Hba1 : exists s1 ea' eb',
     outcome (run_schedule s a b [true; true; false; false]) =
       (s1, Finished (Ok ea'), Finished (Ok eb'))).
  { destruct (serial_upserts_succeed s b a eq_refl eq_refl eq_refl Hd Hib)
      as [s1 [s2 [e2 [H1 [H2 [H3 H4]]]]]].
    cbn [run_schedule]. rewrite H1, H2, H3, H4. simpl. eauto. }
  assert (H4 : forall u v : bool,
     outcome (run_schedule s a b [u; negb u; v; negb v]) =
       if v then
         (set_fts (trg_entries_ai eb (entries_fts s)) (set_entries (entries s ++ [eb]) s),
          Finished (Err (UniqueViolation "entries" "entry_date")), Finished (Ok eb))
       else
         (set_fts (trg_entries_ai ea (entries_fts s)) (set_entries (entries s ++ [ea]) s),
          Finished (Ok ea), Finished (Err (UniqueViolation "entries" "entry_date")))).
  { assert (Hba : ib <> ia) by congruence.
    destruct (racing_inserts s (set_pc a AtInsert) (set_pc b AtInsert) eq_refl eq_refl
                eq_refl Hd Hia Hib Hab) as [Ra1 Ra2].
    destruct (racing_inserts s (set_pc b AtInsert) (set_pc a AtInsert) eq_refl eq_refl
                eq_refl Hd Hib Hia Hba) as [Rb1 Rb2].
    intros u v. destruct u, v;
      repeat (cbn [run_schedule negb];
              first [ rewrite (step_update_absent s a eq_refl Hd)
                    | rewrite (step_update_absent s b eq_refl Hd)
                    | rewrite Ra1 | rewrite Ra2 | rewrite Rb1 | rewrite Rb2 ]);
      reflexivity. }
  split; [exact Hab1|]. split; [exact Hba1|]. split; [exact H4|]. split.
  - intros Hser. specialize (Hser [false; true; false; true]).
    pose proof (H4 false false) as Hint. cbn [negb] in Hint.
    unfold both_finished in Hser. unfold outcome in Hint.
    destruct (run_schedule s a b [false; true; false; true]) as [[sx ax] bx].
    injection Hint as _ Ha Hb. rewrite Ha, Hb in Hser.
    destruct (Hser eq_refl) as [H|H];
      [destruct Hab1 as [? [? [? Hx]]] | destruct Hba1 as [? [? [? Hx]]]];
      rewrite Hx in H; unfold outcome in H; rewrite Ha, Hb in H; discriminate H.
  - intros Hw Hc sched.
    assert (Hsy : index_synced (entries s) (entries_fts s))
      by (apply synced_consistent; [apply Hw|exact Hc]).
    assert (Hv : fully_written a b s s).
    { split; [auto|]. cbn [call_date a]. unfold get_entry. rewrite Hd. exact I. }
    pose proof (run_schedule_view a b s sched eq_refl s a b eq_refl eq_refl eq_refl
                  eq_refl eq_refl eq_refl Hw Hsy Hv) as Hr.
    destruct (run_schedule s a b sched) as [[s' x'] y']. destruct Hr as [W [S V]].
    split; [exact W|]. split; [apply synced_consistent; [apply W|exact S]|exact V].
Qed.

Lemma upsert_entry_interleaving_fails_witness :
  get_entry migrated_once "2026-01-01" = None /\
  ~ In "u1" (map id (entries migrated_once)) /\
  ~ In "u2" (map id (entries migrated_once)) /\
  "u1" <> "u2" /\
  ~ serializable migrated_once call_a call_b.
Proof.
  assert (Hd : get_entry migrated_once "2026-01-01" = None) by (vm_compute; reflexivity).
  assert (H1 : ~ In "u1" (map id (entries migrated_once))) by (vm_compute; intros []).
  assert (H2 : ~ In "u2" (map id (entries migrated_once))) by (vm_compute; intros []).
  assert (H12 : "u1" <> "u2") by discriminate.
  split; [exact Hd|]. split; [exact H1|]. split; [exact H2|]. split; [exact H12|].
  exact (proj1 (proj2 (proj2 (proj2
    (upsert_entry_interleaving_fails migrated_once "2026-01-01" "a" "b" 1 2 "u1" "u2"
       Hd H1 H2 H12))))).
Defined.

(** * Further properties of the queries *)

(** ** Sorting for ORDER BY *)

Section SortBy.

Context {A : Type} (le : A -> A -> bool).

Lemma insert_by_perm (x : A) (l : list A) : Permutation (insert_by le x l) (x :: l).
Proof.
  induction l as [|y t IH]; simpl; [auto|].
  destruct (le x y); [auto|].
  apply (perm_trans (l' := y :: x :: t)); [now constructor|constructor].
Qed.

Lemma sort_by_perm (l : list A) : Permutation (sort_by le l) l.
Proof.
  induction l as [|x t IH]; simpl; [auto|].
  unfold sort_by in *. simpl.
  apply (perm_trans (insert_by_perm x _)). now constructor.
Qed.

Lemma sorted_by_tail (x : A) (l : list A) :
  sorted_by le (x :: l) = true -> sorted_by le l = true.
Proof. destruct l; simpl; auto. now intros [_ H]%andb_prop. Qed.

Hypothesis le_total : forall a b, le a b = false -> le b a = true.

Lemma insert_by_sorted_after (y x : A) (t : list A) :
  le y x = true -> sorted_by le (y :: t) = true -> sorted_by le (y :: insert_by le x t) = true.
Proof.
  revert y. induction t as [|z t IH]; intros y Hyx Hs; simpl in *.
  - now rewrite Hyx.
  - apply andb_prop in Hs as [Hyz Hs]. destruct (le x z) eqn:Hxz; simpl.
    + now rewrite Hyx, Hxz, Hs.
    + rewrite Hyz. simpl. apply IH; auto.
Qed.

Lemma insert_by_sorted (x : A) (l : list A) :
  sorted_by le l = true -> sorted_by le (insert_by le x l) = true.
Proof.
  destruct l as [|y t]; simpl; [auto|]. intros Hs.
  destruct (le x y) eqn:Hxy.
  - simpl. now rewrite Hxy.
  - apply insert_by_sorted_after; auto.
Qed.

Lemma sort_by_sorted (l : list A) : sorted_by le (sort_by le l) = true.
Proof.
  induction l as [|x t IH]; [reflexivity|]. unfold sort_by in *. simpl.
  now apply insert_by_sorted.
Qed.

Hypothesis le_trans : forall a b c, le a b = true -> le b c = true -> le a c = true.

Lemma sorted_by_head (y : A) (t : list A) :
  sorted_by le (y :: t) = true -> forall z, In z t -> le y z = true.
Proof.
  revert y. induction t as [|w t IH]; intros y Hs z Hz; [destruct Hz|].
  simpl in Hs. apply andb_prop in Hs as [Hyw Hs].
  destruct Hz as [<-|Hz]; auto. eapply le_trans; [exact Hyw|]. now apply IH.
Qed.

Lemma insert_by_front (x : A) (m : list A) :
  (forall z, In z m -> le x z = true) -> insert_by le x m = x :: m.
Proof.
  destruct m as [|z m]; simpl; auto. intros H. now rewrite (H z (or_introl eq_refl)).
Qed.

Lemma filter_insert_by (q : A -> bool) (x : A) (l : list A) :
  sorted_by le l = true ->
  filter q (insert_by le x l) = if q x then insert_by le x (filter q l) else filter q l.
Proof.
  induction l as [|y t IH]; intros Hs.
  - simpl. destruct (q x); reflexivity.
  - cbn [insert_by]. destruct (le x y) eqn:Hxy.
    + destruct (q x) eqn:Hqx.
      2:{ simpl. now rewrite Hqx. }
      assert (Hf : filter q (x :: y :: t) = x :: filter q (y :: t))
        by (simpl; now rewrite Hqx).
      rewrite Hf. symmetry. apply insert_by_front. intros z Hz.
      apply filter_In in Hz as [Hz _]. destruct Hz as [<-|Hz]; auto.
      eapply le_trans; [exact Hxy|]. now apply (sorted_by_head y t).
    + cbn [filter]. rewrite IH by (eapply sorted_by_tail; eauto).
      destruct (q x), (q y); simpl; try rewrite Hxy; reflexivity.
Qed.

Lemma filter_sort_by (q : A -> bool) (l : list A) :
  filter q (sort_by le l) = sort_by le (filter q l).
Proof.
  induction l as [|x t IH]; [reflexivity|]. unfold sort_by in *. simpl.
  rewrite filter_insert_by by apply sort_by_sorted.
  destruct (q x); simpl; now rewrite IH.
Qed.

End SortBy.

Lemma string_leb_total (a b : string) : String.leb a b = false -> String.leb b a = true.
Proof. intros H. destruct (String.leb_total a b); congruence. Qed.

Lemma string_leb_trans (a b c : string) :
  String.leb a b = true -> String.leb b c = true -> String.leb a c = true.
Proof.
  unfold String.leb. revert b c.
  induction a as [|x a IH]; intros [|y b] [|z c]; simpl; intros H1 H2; auto;
    try discriminate.
  unfold Ascii.compare in *.
  destruct (N.compare_spec (N_of_ascii x) (N_of_ascii y)) as [E1|E1|E1];
    try discriminate H1;
  destruct (N.compare_spec (N_of_ascii y) (N_of_ascii z)) as [E2|E2|E2];
    try discriminate H2;
  destruct (N.compare_spec (N_of_ascii x) (N_of_ascii z)) as [E3|E3|E3];
    auto; try lia.
  apply (IH b c H1 H2).
Qed.

(** ** Settings *)

Lemma find_save_setting (rows : list (string * string * Z)) (key value k : string) (now : Z) :
  find (fun r => String.eqb (setting_key r) k)
    (map (fun r => if String.eqb (setting_key r) key then (key, value, now) else r) rows) =
  if String.eqb k key then
    (if existsb (fun r => String.eqb (setting_key r) key) rows
     then Some (key, value, now) else None)
  else find (fun r => String.eqb (setting_key r) k) rows.
Proof.
  induction rows as [|r rows IH]; simpl.
  - destruct (String.eqb k key); reflexivity.
  - rewrite IH. destruct (String.eqb_spec (setting_key r) key) as [Hr|Hr]; simpl.
    + unfold setting_key at 1. simpl. rewrite Hr.
      destruct (String.eqb_spec key k) as [->|Hk]; simpl.
      * now rewrite eqb_refl'.
      * destruct (String.eqb_spec k key); [congruence|reflexivity].
    + destruct (String.eqb_spec (setting_key r) k) as [Hk|Hk];
        destruct (String.eqb_spec k key); simpl; congruence.
Qed.

Lemma find_app' {A : Type} (p : A -> bool) (l1 l2 : list A) :
  find p (l1 ++ l2) = match find p l1 with Some x => Some x | None => find p l2 end.
Proof. induction l1 as [|x l1 IH]; simpl; auto. destruct (p x); auto. Qed.

Lemma find_existsb_false {A : Type} (p : A -> bool) (l : list A) :
  existsb p l = false -> find p l = None.
Proof.
  induction l as [|x l IH]; simpl; auto.
  destruct (p x); simpl; [discriminate|auto].
Qed.

(** [save_setting] then [get_setting]: the saved key reads back the saved
    value, and every other key reads back what it read before. *)
Theorem get_setting_after_save (s : Store) (key value : string) (now : Z) (k : string) :
  get_setting (save_setting s key value now) k =
  if String.eqb k key then Some value else get_setting s k.
Proof.
  unfold get_setting, save_setting.
  destruct (existsb (fun r => String.eqb (setting_key r) key) (app_settings s)) eqn:E;
    unfold set_app_settings; cbn [app_settings].
  - rewrite find_save_setting, E. destruct (String.eqb k key); reflexivity.
  - rewrite find_app'. destruct (String.eqb_spec k key) as [->|Hk].
    + rewrite find_existsb_false by exact E. simpl. now rewrite eqb_refl'.
    + destruct (find _ (app_settings s)); [reflexivity|]. unfold setting_key. simpl.
      destruct (String.eqb_spec key k); [congruence|reflexivity].
Qed.

Lemma existsb_map' {A B : Type} (p : B -> bool) (f : A -> B) (l : list A) :
  existsb p (map f l) = existsb (fun x => p (f x)) l.
Proof. induction l as [|x l IH]; simpl; congruence. Qed.

(** Saving a key twice leaves the table as saving it once with the second
    value and timestamp: the ON CONFLICT branch overwrites both columns. *)
Theorem save_setting_twice (s : Store) (key v1 v2 : string) (t1 t2 : Z) :
  save_setting (save_setting s key v1 t1) key v2 t2 = save_setting s key v2 t2.
Proof.
  unfold save_setting.
  destruct (existsb (fun r => String.eqb (setting_key r) key) (app_settings s)) eqn:E;
    unfold set_app_settings; cbn [app_settings].
  - rewrite existsb_map'.
    replace (existsb _ (app_settings s)) with true.
    2:{ symmetry. apply existsb_exists in E as [r [Hr Hk]]. apply existsb_exists.
        exists r. split; auto. rewrite Hk. unfold setting_key. simpl. apply eqb_refl'. }
    f_equal. rewrite map_map. apply map_ext. intros r.
    destruct (String.eqb (setting_key r) key) eqn:Hr; simpl.
    + unfold setting_key. simpl. now rewrite eqb_refl'.
    + now rewrite Hr.
  - rewrite existsb_app, E. simpl. unfold setting_key at 2. simpl. rewrite eqb_refl'. simpl.
    f_equal. rewrite map_app. cbn [map fst]. rewrite eqb_refl'. f_equal.
    transitivity (map (fun r => r) (app_settings s)); [|apply map_id].
    apply map_ext_in. intros r Hr.
    destruct (String.eqb (fst (fst r)) key) eqn:Hk; auto.
    exfalso. assert (existsb (fun r => String.eqb (setting_key r) key) (app_settings s) = true)
      by (apply existsb_exists; eauto). congruence.
Qed.

(** ** AI operations *)

Lemma find_by_id_in_map (x : string) (es : list DiaryEntry) :
  (exists e, find_by_id x es = Some e) <-> In x (map id es).
Proof.
  split.
  - intros [e He]. apply find_by_id_some in He as [Hin <-]. now apply in_map.
  - intros Hin. destruct (find_by_id x es) as [e|] eqn:He; eauto.
    apply find_by_id_none in He. contradiction.
Qed.

Lemma create_ai_operation_iff (s s' : Store)
    (entry_id op_type original_text result_text provider model : string)
    (now : Z) (fresh_id : string) (op : AIOperation) :
  create_ai_operation s entry_id op_type original_text result_text provider model now
    fresh_id = Ok (s', op) <->
  ~ In fresh_id (map ai_id (ai_operations s)) /\ In entry_id (map id (entries s)) /\
  op = mkAIOperation fresh_id entry_id op_type original_text result_text provider model now /\
  s' = set_ai_operations (ai_operations s ++ [op]) s.
Proof.
  unfold create_ai_operation, insert_ai_operation. cbn [ai_id ai_entry_id].
  destruct (existsb (fun x => String.eqb (ai_id x) fresh_id) (ai_operations s)) eqn:E1.
  - simpl. split; [discriminate|]. intros [Hn _]. apply existsb_key_in in E1. contradiction.
  - apply existsb_false_not_in in E1.
    destruct (find_by_id entry_id (entries s)) as [e|] eqn:E2; simpl.
    + assert (Hin : In entry_id (map id (entries s)))
        by (apply find_by_id_in_map; eauto).
      split.
      * intros H. injection H as <- <-. auto.
      * intros [_ [_ [-> ->]]]. reflexivity.
    + split; [discriminate|]. intros [_ [Hin _]].
      apply find_by_id_in_map in Hin as [e He]. congruence.
Qed.

Lemma filter_all_false {A : Type} (q : A -> bool) (l : list A) :
  (forall x, In x l -> q x = false) -> filter q l = [].
Proof.
  induction l as [|x l IH]; simpl; auto. intros H.
  rewrite (H x (or_introl eq_refl)). apply IH. auto.
Qed.

Lemma filter_snoc {A : Type} (q : A -> bool) (l : list A) (x : A) :
  filter q (l ++ [x]) = filter q l ++ (if q x then [x] else []).
Proof. rewrite filter_app. reflexivity. Qed.

(** After [create_ai_operation] succeeds, the entry's operation list gains
    the new operation, and the lists of all other entries are unchanged. *)
Theorem create_then_list_ai_operations (s s' : Store)
    (entry_id op_type original_text result_text provider model : string)
    (now : Z) (fresh_id : string) (op : AIOperation) :
  create_ai_operation s entry_id op_type original_text result_text provider model now
    fresh_id = Ok (s', op) ->
  Permutation (list_ai_operations s' entry_id) (op :: list_ai_operations s entry_id) /\
  (forall x, x <> entry_id -> list_ai_operations s' x = list_ai_operations s x).
Proof.
  intros H. apply create_ai_operation_iff in H as [_ [_ [Hop ->]]].
  unfold list_ai_operations, set_ai_operations. cbn [ai_operations].
  assert (Hid : ai_entry_id op = entry_id) by (rewrite Hop; reflexivity).
  split.
  - rewrite filter_snoc, Hid, eqb_refl'.
    eapply perm_trans; [apply sort_by_perm|].
    eapply perm_trans; [apply Permutation_sym, Permutation_cons_append|].
    constructor. apply Permutation_sym, sort_by_perm.
  - intros x Hx. rewrite filter_snoc, Hid.
    destruct (String.eqb_spec entry_id x); [congruence|]. now rewrite app_nil_r.
Qed.

Lemma create_then_list_ai_operations_witness :
  create_ai_operation store_with_op "u1" "expand" "coffee" "More coffee." "zhipu"
    "glm-4-flash" 12 "op2" = Ok (set_ai_operations [op_one; op_two] store_one, op_two) /\
  Permutation (list_ai_operations (set_ai_operations [op_one; op_two] store_one) "u1")
    (op_two :: list_ai_operations store_with_op "u1") /\
  (forall x, x <> "u1" ->
     list_ai_operations (set_ai_operations [op_one; op_two] store_one) x =
     list_ai_operations store_with_op x).
Proof.
  assert (H : create_ai_operation store_with_op "u1" "expand" "coffee" "More coffee." "zhipu"
                "glm-4-flash" 12 "op2" = Ok (set_ai_operations [op_one; op_two] store_one, op_two))
    by (vm_compute; reflexivity).
  split; [exact H|].
  exact (create_then_list_ai_operations store_with_op _ "u1" "expand" "coffee" "More coffee."
           "zhipu" "glm-4-flash" 12 "op2" op_two H).
Defined.

(** [delete_ai_operations_for_entry] reports as many rows as
    [list_ai_operations] listed for the entry, leaves it with none, and
    keeps the entries and every other entry's operations. *)
Theorem delete_ai_operations_for_entry_spec (s : Store) (entry_id : string) :
  snd (delete_ai_operations_for_entry s entry_id) =
    length (list_ai_operations s entry_id) /\
  list_ai_operations (fst (delete_ai_operations_for_entry s entry_id)) entry_id = [] /\
  (forall x, x <> entry_id ->
     list_ai_operations (fst (delete_ai_operations_for_entry s entry_id)) x =
     list_ai_operations s x) /\
  entries (fst (delete_ai_operations_for_entry s entry_id)) = entries s.
Proof.
  unfold delete_ai_operations_for_entry, list_ai_operations, set_ai_operations. cbn.
  split; [|split; [|split]].
  - symmetry. apply Permutation_length, sort_by_perm.
  - rewrite filter_filter', filter_all_false; [reflexivity|].
    intros o _. now destruct (String.eqb (ai_entry_id o) entry_id).
  - intros x Hx. rewrite filter_filter'. unfold sort_by. f_equal. apply filter_ext. intros o.
    destruct (String.eqb_spec (ai_entry_id o) x) as [->|]; [|now rewrite andb_false_r].
    destruct (String.eqb_spec x entry_id); [congruence|reflexivity].
  - reflexivity.
Qed.

(** ** Month listings ([LIKE] on month prefixes) *)

Lemma in_all_ascii (c : Ascii.ascii) : In c all_ascii.
Proof.
  unfold all_ascii. rewrite <- (Ascii.ascii_nat_embedding c).
  apply in_map, in_seq. pose proof (Ascii.nat_ascii_bounded c). lia.
Qed.

Lemma digit_or_dash_chars (c b : Ascii.ascii) :
  is_digit_or_dash c = true ->
  Ascii.eqb c "%"%char = false /\ Ascii.eqb c "_"%char = false /\
  Ascii.eqb (fold_case c) (fold_case b) = Ascii.eqb c b.
Proof.
  assert (Hall : forallb (fun c => forallb (fun b => implb (is_digit_or_dash c)
     (negb (Ascii.eqb c "%"%char) && negb (Ascii.eqb c "_"%char) &&
      Bool.eqb (Ascii.eqb (fold_case c) (fold_case b)) (Ascii.eqb c b)))
     all_ascii) all_ascii = true) by (vm_compute; reflexivity).
  intros Hc. rewrite forallb_forall in Hall.
  specialize (Hall c (in_all_ascii c)). rewrite forallb_forall in Hall.
  specialize (Hall b (in_all_ascii b)). rewrite Hc in Hall. simpl in Hall.
  apply andb_prop in Hall as [H12 H3]. apply andb_prop in H12 as [H1 H2].
  apply negb_true_iff in H1, H2. apply eqb_prop in H3. auto.
Qed.

Lemma like_percent (t : string) : like "%" t = true.
Proof.
  simpl. generalize false. induction t as [|c t IH]; intros inside; [reflexivity|].
  rewrite IH. apply orb_true_r.
Qed.

Lemma like_month_prefix (m d : string) :
  all_chars is_digit_or_dash m = true -> like (m ++ "%")%string d = String.prefix m d.
Proof.
  revert d. induction m as [|c m IH]; intros d Hm.
  - simpl (_ ++ _)%string. rewrite like_percent. destruct d; reflexivity.
  - simpl in Hm. apply andb_prop in Hm as [Hc Hm].
    destruct d as [|b d].
    + simpl. destruct (digit_or_dash_chars c c Hc) as [-> _]. reflexivity.
    + destruct (digit_or_dash_chars c b Hc) as [Hp [Hu Hf]].
      simpl (String c m ++ "%")%string. cbn [like]. rewrite Hp, Hu, Hf, IH by exact Hm.
      simpl. destruct (Ascii.eqb_spec c b), (Ascii.ascii_dec c b); congruence || reflexivity.
Qed.

Lemma entry_date_desc_total (a b : DiaryEntry) :
  entry_date_desc a b = false -> entry_date_desc b a = true.
Proof. apply string_leb_total. Qed.

Lemma entry_date_desc_trans (a b c : DiaryEntry) :
  entry_date_desc a b = true -> entry_date_desc b c = true -> entry_date_desc a c = true.
Proof. unfold entry_date_desc. intros H1 H2. eapply string_leb_trans; eauto. Qed.

Lemma string_leb_neq_ltb (a b : string) :
  String.leb a b = true -> a <> b -> String.ltb a b = true.
Proof.
  unfold String.leb, String.ltb. intros H Hne.
  destruct (String.compare a b) eqn:E; auto.
  apply String.compare_eq_iff in E. contradiction.
Qed.

Lemma sorted_desc_strict (l : list DiaryEntry) :
  sorted_by entry_date_desc l = true -> NoDup (map entry_date l) ->
  sorted_by (fun a b => String.ltb (entry_date b) (entry_date a)) l = true.
Proof.
  induction l as [|x [|y t] IH]; intros Hs Hnd; auto.
  cbn [sorted_by] in *. apply andb_prop in Hs as [Hxy Hs].
  inversion Hnd as [|? ? Hx Hnd']; subst.
  rewrite IH by assumption. rewrite andb_true_r.
  apply string_leb_neq_ltb; [exact Hxy|]. intros E. apply Hx. simpl. auto.
Qed.

(** [list_entries] with a month made of digits and dashes (such as
    2026-01): the pattern [month%] is a prefix test, so the entries listed
    are exactly those whose date starts with the month; they come in
    strictly descending date order, each once. *)
Theorem list_entries_month (s : Store) (month : string) :
  wf s -> all_chars is_digit_or_dash month = true ->
  (forall e, In e (list_entries s month) <->
             In e (entries s) /\ String.prefix month (entry_date e) = true) /\
  sorted_by (fun a b => String.ltb (entry_date b) (entry_date a))
    (list_entries s month) = true.
Proof.
  intros Hwf Hm. split.
  - intros e. unfold list_entries.
    split.
    + intros He. apply (Permutation_in _ (sort_by_perm _ _)) in He.
      apply filter_In in He as [He Hl]. rewrite like_month_prefix in Hl by exact Hm. auto.
    + intros [He Hp]. apply (Permutation_in _ (Permutation_sym (sort_by_perm _ _))).
      apply filter_In. rewrite like_month_prefix by exact Hm. auto.
  - apply sorted_desc_strict.
    + apply sort_by_sorted, entry_date_desc_total.
    + eapply Permutation_NoDup; [apply Permutation_map, Permutation_sym, sort_by_perm|].
      apply NoDup_map_filter, (proj2 Hwf).
Qed.

(** [list_entries_by_mood] lists the entries [list_entries] lists for the
    month that have the mood, in the same order; an entry without mood is
    never listed. *)
Theorem list_entries_by_mood_filter (s : Store) (month m : string) :
  list_entries_by_mood s month m = filter (mood_is m) (list_entries s month).
Proof.
  unfold list_entries_by_mood, list_entries.
  rewrite (filter_sort_by entry_date_desc entry_date_desc_total entry_date_desc_trans).
  now rewrite filter_filter'.
Qed.

Lemma list_entries_month_witness :
  wf store_search /\ all_chars is_digit_or_dash "2026-01" = true /\
  ((forall e, In e (list_entries store_search "2026-01") <->
     In e (entries store_search) /\ String.prefix "2026-01" (entry_date e) = true) /\
   sorted_by (fun a b => String.ltb (entry_date b) (entry_date a))
     (list_entries store_search "2026-01") = true).
Proof.
  assert (Hwf : wf store_search) by (split; vm_compute; repeat constructor; simpl; intuition discriminate).
  assert (Hm : all_chars is_digit_or_dash "2026-01" = true) by reflexivity.
  split; [exact Hwf|]. split; [exact Hm|].
  exact (list_entries_month store_search "2026-01" Hwf Hm).
Defined.

(** ** Writing statistics *)

Section StatsBounds.

Variable parse_date : string -> option Z.

Lemma current_streak_loop_bounds (ds : list string) (c k : Z) :
  0 <= k -> k <= current_streak_loop parse_date c k ds <= k + Z.of_nat (length ds).
Proof.
  revert c k. induction ds as [|d ds IH]; intros c k Hk; simpl; [lia|].
  destruct (parse_date d) as [ed|].
  - destruct (ed =? c).
    + specialize (IH (c - 1) (k + 1)). lia.
    + destruct (ed <? c); [lia|]. specialize (IH c k). lia.
  - specialize (IH c k). lia.
Qed.

Lemma current_streak_loop_absent (ds : list string) (c k : Z) :
  (forall d, In d ds -> parse_date d <> Some c) -> current_streak_loop parse_date c k ds = k.
Proof.
  induction ds as [|d ds IH]; intros H; simpl; [reflexivity|].
  destruct (parse_date d) as [ed|] eqn:Hp.
  - destruct (Z.eqb_spec ed c) as [->|_]; [exfalso; apply (H d); simpl; auto|].
    destruct (ed <? c); [reflexivity|]. apply IH. intros d' Hd'. apply H. simpl; auto.
  - apply IH. intros d' Hd'. apply H. simpl; auto.
Qed.

Lemma longest_streak_loop_bounds (ds : list string) (prev : option Z) (l c : Z) :
  0 <= l -> 0 <= c -> (prev = None -> c = 0) ->
  Z.max l c <= longest_streak_loop parse_date prev l c ds <= Z.max l c + Z.of_nat (length ds).
Proof.
  revert prev l c. induction ds as [|d ds IH]; intros prev l c Hl Hc Hp; simpl; [lia|].
  destruct (parse_date d) as [ed|].
  - destruct prev as [pv|].
    + destruct (ed - pv =? 1).
      * destruct (IH (Some ed) l (c + 1)); [lia|lia|discriminate|lia].
      * destruct (IH (Some ed) (Z.max l c) 1); [lia|lia|discriminate|lia].
    + specialize (Hp eq_refl). subst c.
      destruct (IH (Some ed) l 1); [lia|lia|discriminate|lia].
  - specialize (IH prev l c Hl Hc Hp). lia.
Qed.

Lemma longest_streak_loop_none (ds : list string) (l : Z) :
  (forall d, In d ds -> parse_date d = None) ->
  longest_streak_loop parse_date None l 0 ds = Z.max l 0.
Proof.
  induction ds as [|d ds IH]; intros H; simpl; [reflexivity|].
  rewrite (H d (or_introl eq_refl)). apply IH. intros d' Hd'. apply H. simpl; auto.
Qed.

Lemma longest_streak_loop_some (ds : list string) (prev : option Z) (l c : Z) :
  0 <= l -> 0 <= c -> (prev = None -> c = 0) ->
  (exists d, In d ds /\ parse_date d <> None) ->
  1 <= longest_streak_loop parse_date prev l c ds.
Proof.
  revert prev l c. induction ds as [|d ds IH]; intros prev l c Hl Hc Hp [d' [Hin Hd']];
    [destruct Hin|].
  simpl. destruct (parse_date d) as [ed|] eqn:Hpd.
  - destruct prev as [pv|]; [destruct (ed - pv =? 1)|].
    + destruct (longest_streak_loop_bounds ds (Some ed) l (c + 1)); [lia|lia|discriminate|lia].
    + destruct (longest_streak_loop_bounds ds (Some ed) (Z.max l c) 1);
        [lia|lia|discriminate|lia].
    + destruct (longest_streak_loop_bounds ds (Some ed) l 1); [lia|lia|discriminate|lia].
  - destruct Hin as [<-|Hin]; [congruence|]. apply IH; eauto.
Qed.

End StatsBounds.

Lemma in_stats_dates (s : Store) (d : string) :
  In d (sort_by String.leb (map entry_date (entries s))) <->
  exists e, In e (entries s) /\ entry_date e = d.
Proof.
  split.
  - intros H. apply (Permutation_in _ (sort_by_perm _ _)), in_map_iff in H.
    destruct H as [e [He Hin]]. eauto.
  - intros [e [Hin He]]. apply (Permutation_in _ (Permutation_sym (sort_by_perm _ _))).
    apply in_map_iff. eauto.
Qed.

(** [get_writing_stats], for any date parser: [total_entries] is the
    number of entries, and both streaks lie between 0 and it. *)
Theorem get_writing_stats_bounds (parse_date : string -> option Z) (s : Store) (today : Z) :
  total_entries (get_writing_stats parse_date s today) = Z.of_nat (length (entries s)) /\
  0 <= current_streak (get_writing_stats parse_date s today) <= Z.of_nat (length (entries s)) /\
  0 <= longest_streak (get_writing_stats parse_date s today) <= Z.of_nat (length (entries s)).
Proof.
  unfold get_writing_stats. cbn [total_entries current_streak longest_streak].
  assert (Hlen : length (sort_by String.leb (map entry_date (entries s))) = length (entries s))
    by (rewrite (Permutation_length (sort_by_perm _ _)); apply length_map).
  split; [reflexivity|]. split.
  - unfold calculate_current_streak.
    destruct (sort_by String.leb (map entry_date (entries s))) as [|d ds] eqn:E; [lia|].
    rewrite <- Hlen, <- length_rev.
    pose proof (current_streak_loop_bounds parse_date (rev (d :: ds)) today 0). lia.
  - unfold calculate_longest_streak.
    destruct (sort_by String.leb (map entry_date (entries s))) as [|d ds] eqn:E; [lia|].
    rewrite <- Hlen.
    destruct (longest_streak_loop_bounds parse_date (d :: ds) None 0 0); [lia|lia|reflexivity|lia].
Qed.

(** The longest streak is 0 exactly when no stored date parses. *)
Theorem get_writing_stats_longest_zero (parse_date : string -> option Z) (s : Store) (today : Z) :
  longest_streak (get_writing_stats parse_date s today) = 0 <->
  forall e, In e (entries s) -> parse_date (entry_date e) = None.
Proof.
  unfold get_writing_stats. cbn [longest_streak]. unfold calculate_longest_streak.
  split.
  - intros H0 e He. destruct (parse_date (entry_date e)) as [x|] eqn:Hx; [exfalso|reflexivity].
    assert (Hin : In (entry_date e) (sort_by String.leb (map entry_date (entries s))))
      by (apply in_stats_dates; eauto).
    destruct (sort_by String.leb (map entry_date (entries s))) as [|d ds]; [destruct Hin|].
    assert (1 <= longest_streak_loop parse_date None 0 0 (d :: ds)); [|lia].
    apply longest_streak_loop_some; [lia|lia|reflexivity|].
    exists (entry_date e). split; [exact Hin|congruence].
  - intros H.
    assert (Hall : forall d, In d (sort_by String.leb (map entry_date (entries s))) ->
                             parse_date d = None)
      by (intros d Hd; apply in_stats_dates in Hd as [e [He <-]]; auto).
    destruct (sort_by String.leb (map entry_date (entries s))) as [|d ds]; [reflexivity|].
    now rewrite longest_streak_loop_none.
Qed.

(** When no stored date parses to [today], the current streak is 0, even
    if there are entries on the days just before. *)
Theorem get_writing_stats_no_entry_today (parse_date : string -> option Z) (s : Store)
    (today : Z) :
  (forall e, In e (entries s) -> parse_date (entry_date e) <> Some today) ->
  current_streak (get_writing_stats parse_date s today) = 0.
Proof.
  intros H. unfold get_writing_stats. cbn [current_streak]. unfold calculate_current_streak.
  assert (Hall : forall d, In d (rev (sort_by String.leb (map entry_date (entries s)))) ->
                           parse_date d <> Some today)
    by (intros d Hd; apply in_rev, in_stats_dates in Hd as [e [He <-]]; auto).
  destruct (sort_by String.leb (map entry_date (entries s))) as [|d ds]; [reflexivity|].
  now apply current_streak_loop_absent.
Qed.

Lemma get_writing_stats_no_entry_today_witness :
  (forall e, In e (entries store_one) -> parse_ymd (entry_date e) <> Some 20455) /\
  entries store_one <> [] /\
  current_streak (get_writing_stats parse_ymd store_one 20455) = 0.
Proof.
  assert (H : forall e, In e (entries store_one) -> parse_ymd (entry_date e) <> Some 20455).
  { intros e [<-|[]]. vm_compute. discriminate. }
  split; [exact H|]. split; [discriminate|].
  exact (get_writing_stats_no_entry_today parse_ymd store_one 20455 H).
Defined.

(** ** Export and import *)

Lemma import_entries_all_present (es : list DiaryEntry) (s : Store) (n : nat) :
  (forall e, In e es -> In (entry_date e) (map entry_date (entries s))) ->
  import_entries s es false n = Ok (s, n).
Proof.
  induction es as [|e es IH]; intros H; simpl; [reflexivity|].
  destruct (find_by_date (entry_date e) (entries s)) as [x|] eqn:E.
  - apply IH. intros e' He'. apply H. simpl; auto.
  - apply find_by_date_none_iff in E. exfalso. apply E, H. simpl; auto.
Qed.

Lemma import_ai_operations_all_present (ops : list AIOperation) (s : Store) :
  (forall o, In o ops -> In (ai_id o) (map ai_id (ai_operations s))) ->
  import_ai_operations s ops = Ok s.
Proof.
  induction ops as [|o ops IH]; intros H; simpl; [reflexivity|].
  rewrite (proj2 (existsb_key_in ai_id (ai_id o) _)) by (apply H; simpl; auto).
  apply IH. intros o' Ho'. apply H. simpl; auto.
Qed.

(** Importing a store's own export without overwrite changes nothing and
    reports 0 imported entries, with or without the AI operations. *)
Theorem import_own_export_is_noop (s : Store) (now : Z) (include_ai : bool) :
  import_data s (export_all_data s now) (mkImportOptions false include_ai) = Ok (s, 0%nat).
Proof.
  unfold import_data, export_all_data. cbn [data_entries data_ai_operations overwrite
    include_ai_operations].
  rewrite import_entries_all_present.
  2:{ intros e He. apply (Permutation_in _ (sort_by_perm _ _)) in He. now apply in_map. }
  simpl. destruct include_ai; [|reflexivity].
  rewrite import_ai_operations_all_present; [reflexivity|].
  intros o Ho. apply (Permutation_in _ (sort_by_perm _ _)) in Ho. now apply in_map.
Qed.

Lemma import_entries_fresh (ow : bool) (es : list DiaryEntry) : forall (t : Store) (n : nat),
  NoDup (map id (entries t ++ es)) -> NoDup (map entry_date (entries t ++ es)) ->
  exists t', import_entries t es ow n = Ok (t', (n + length es)%nat) /\
    entries t' = entries t ++ es /\ ai_operations t' = ai_operations t /\
    app_settings t' = app_settings t.
Proof.
  induction es as [|e es IH]; intros t n Hid Hd.
  - exists t. rewrite app_nil_r, Nat.add_0_r. auto.
  - rewrite map_app in Hid, Hd. cbn [map] in Hid, Hd.
    pose proof (NoDup_remove_2 _ _ _ Hid) as Hid'.
    pose proof (NoDup_remove_2 _ _ _ Hd) as Hd'.
    assert (Hnd : ~ In (entry_date e) (map entry_date (entries t)))
      by (intros H; apply Hd', in_or_app; auto).
    assert (Hni : ~ In (id e) (map id (entries t)))
      by (intros H; apply Hid', in_or_app; auto).
    simpl. apply find_by_date_none_iff in Hnd. rewrite Hnd.
    unfold insert_entry.
    destruct (existsb (fun x => String.eqb (id x) (id e)) (entries t)) eqn:E1.
    { apply existsb_key_in in E1. contradiction. }
    destruct (existsb (fun x => String.eqb (entry_date x) (entry_date e)) (entries t)) eqn:E2.
    { apply existsb_key_in in E2. apply find_by_date_none_iff in Hnd. contradiction. }
    simpl.
    set (t1 := set_fts (trg_entries_ai e (entries_fts t)) (set_entries (entries t ++ [e]) t)).
    destruct (IH t1 (S n)) as [t' [Hr [He [Ho Ha]]]].
    + unfold t1; simpl. rewrite <- app_assoc, map_app. exact Hid.
    + unfold t1; simpl. rewrite <- app_assoc, map_app. exact Hd.
    + exists t'. rewrite Hr. replace (S n + length es)%nat with (n + S (length es))%nat by lia.
      split; [reflexivity|]. unfold t1 in *; simpl in *.
      rewrite He, <- app_assoc. auto.
Qed.

Lemma import_ai_operations_fresh (ops : list AIOperation) : forall (t : Store),
  NoDup (map ai_id (ai_operations t ++ ops)) ->
  (forall o, In o ops -> In (ai_entry_id o) (map id (entries t))) ->
  exists t', import_ai_operations t ops = Ok t' /\
    ai_operations t' = ai_operations t ++ ops /\ entries t' = entries t /\
    app_settings t' = app_settings t.
Proof.
  induction ops as [|o ops IH]; intros t Hid Hfk.
  - exists t. rewrite app_nil_r. auto.
  - rewrite map_app in Hid. cbn [map] in Hid.
    pose proof (NoDup_remove_2 _ _ _ Hid) as Hid'.
    assert (Hni : ~ In (ai_id o) (map ai_id (ai_operations t)))
      by (intros H; apply Hid', in_or_app; auto).
    simpl. destruct (existsb (fun x => String.eqb (ai_id x) (ai_id o)) (ai_operations t)) eqn:E1.
    { apply existsb_key_in in E1. contradiction. }
    unfold insert_ai_operation. rewrite E1.
    destruct (find_by_id (ai_entry_id o) (entries t)) as [x|] eqn:E2.
    2:{ apply find_by_id_none in E2. exfalso. apply E2, Hfk. simpl; auto. }
    simpl.
    destruct (IH (set_ai_operations (ai_operations t ++ [o]) t)) as [t' [Hr [Ho [He Ha]]]].
    + simpl. rewrite <- app_assoc, map_app. exact Hid.
    + intros o' Ho'. simpl. apply Hfk. simpl; auto.
    + exists t'. rewrite Hr. simpl in *. rewrite Ho, He, Ha, <- app_assoc. auto.
Qed.

(** Exporting a well-formed store (AI operations with distinct ids, each
    referencing an entry) and importing the bundle into a store without
    entries and AI operations succeeds, reports every entry as imported and
    reproduces both tables up to row order; the settings of the target are
    kept. *)
Theorem export_import_round_trip (s t : Store) (now : Z) (ow : bool) :
  wf s -> NoDup (map ai_id (ai_operations s)) ->
  (forall o, In o (ai_operations s) -> In (ai_entry_id o) (map id (entries s))) ->
  entries t = [] -> ai_operations t = [] ->
  exists t', import_data t (export_all_data s now) (mkImportOptions ow true) =
               Ok (t', length (entries s)) /\
    Permutation (entries t') (entries s) /\
    Permutation (ai_operations t') (ai_operations s) /\
    app_settings t' = app_settings t.
Proof.
  intros [Hid Hd] Hop Hfk Het Hot.
  unfold import_data, export_all_data. cbn [data_entries data_ai_operations overwrite
    include_ai_operations].
  set (es := sort_by (fun a b => String.leb (entry_date a) (entry_date b)) (entries s)).
  set (ops := sort_by (fun a b => ai_created_at a <=? ai_created_at b) (ai_operations s)).
  assert (Pes : Permutation es (entries s)) by apply sort_by_perm.
  assert (Pops : Permutation ops (ai_operations s)) by apply sort_by_perm.
  destruct (import_entries_fresh ow es t 0) as [t1 [H1 [He1 [Ho1 Ha1]]]].
  { rewrite Het. simpl. eapply Permutation_NoDup; [apply Permutation_map, Permutation_sym, Pes|exact Hid]. }
  { rewrite Het. simpl. eapply Permutation_NoDup; [apply Permutation_map, Permutation_sym, Pes|exact Hd]. }
  rewrite H1. simpl.
  destruct (import_ai_operations_fresh ops t1) as [t2 [H2 [Ho2 [He2 Ha2]]]].
  { rewrite Ho1, Hot. simpl. eapply Permutation_NoDup; [apply Permutation_map, Permutation_sym, Pops|exact Hop]. }
  { intros o Ho. rewrite He1, Het. simpl.
    apply (Permutation_in _ (Permutation_map id (Permutation_sym Pes))).
    apply Hfk. now apply (Permutation_in _ Pops). }
  rewrite H2. simpl. exists t2.
  rewrite (Permutation_length Pes).
  split; [reflexivity|]. split; [|split].
  - rewrite He2, He1, Het. exact Pes.
  - rewrite Ho2, Ho1, Hot. exact Pops.
  - congruence.
Qed.

Lemma export_import_round_trip_witness :
  wf store_with_op /\ NoDup (map ai_id (ai_operations store_with_op)) /\
  (forall o, In o (ai_operations store_with_op) ->
     In (ai_entry_id o) (map id (entries store_with_op))) /\
  entries migrated_once = [] /\ ai_operations migrated_once = [] /\
  exists t', import_data migrated_once (export_all_data store_with_op 99)
               (mkImportOptions false true) = Ok (t', length (entries store_with_op)) /\
    Permutation (entries t') (entries store_with_op) /\
    Permutation (ai_operations t') (ai_operations store_with_op) /\
    app_settings t' = app_settings migrated_once.
Proof.
  assert (Hwf : wf store_with_op) by exact wf_store_one.
  assert (Hop : NoDup (map ai_id (ai_operations store_with_op)))
    by (simpl; repeat constructor; simpl; tauto).
  assert (Hfk : forall o, In o (ai_operations store_with_op) ->
                  In (ai_entry_id o) (map id (entries store_with_op)))
    by (intros o [<-|[]]; simpl; auto).
  assert (He : entries migrated_once = []) by (vm_compute; reflexivity).
  assert (Ho : ai_operations migrated_once = []) by (vm_compute; reflexivity).
  split; [exact Hwf|]. split; [exact Hop|]. split; [exact Hfk|].
  split; [exact He|]. split; [exact Ho|].
  exact (export_import_round_trip store_with_op migrated_once 99 false Hwf Hop Hfk He Ho).
Defined.

(** ** Upserts *)

Lemma update_entries_settings (p : DiaryEntry -> bool) (f : DiaryEntry -> DiaryEntry) (s : Store) :
  app_settings (fst (update_entries p f s)) = app_settings s.
Proof.
  unfold update_entries. destruct (update_rows p f (entries s) (entries_fts s)) as [[a b] c].
  reflexivity.
Qed.

Lemma insert_entry_rows (e : DiaryEntry) (s s' : Store) :
  insert_entry e s = Ok s' ->
  entries s' = entries s ++ [e] /\ ai_operations s' = ai_operations s /\
  app_settings s' = app_settings s.
Proof.
  unfold insert_entry. destruct (existsb _ _); [discriminate|].
  destruct (existsb _ _); [discriminate|]. intros H. injection H as <-. auto.
Qed.

(** After a successful [upsert_entry] on a well-formed store, [get_entry]
    on the date returns the entry the call returned, [get_entry] on every
    other date is unchanged, and the AI operations and settings are
    untouched. *)
Theorem upsert_entry_read_after_write (s s' : Store) (d c : string) (now : Z) (fid : string)
    (e : DiaryEntry) :
  wf s -> upsert_entry s d c now fid = Ok (s', e) ->
  get_entry s' d = Some e /\
  (forall d', d' <> d -> get_entry s' d' = get_entry s d') /\
  ai_operations s' = ai_operations s /\ app_settings s' = app_settings s.
Proof.
  intros Hwf H.
  destruct (upsert_entry_step s s' d c now fid e Hwf H) as [_ [Hg _]].
  split; [exact Hg|]. unfold get_entry. unfold upsert_entry in H.
  set (f := fun e => mkEntry (id e) (entry_date e) c (mood e) (mood_emoji e) (created_at e) now) in H.
  destruct (find_by_date d (entries s)) as [e0|] eqn:Hf.
  - destruct (update_entries_wf (fun x => String.eqb (entry_date x) d) f s
                ltac:(solve_upd_keys) ltac:(solve_upd_keys) Hwf) as [H1 [H2 _]].
    pose proof (update_entries_other (fun x => String.eqb (entry_date x) d) f s) as H4.
    pose proof (update_entries_settings (fun x => String.eqb (entry_date x) d) f s) as H5.
    rewrite (filter_date_unique d _ e0 (proj2 Hwf) Hf) in H2.
    destruct (update_entries _ f s) as [s1 ret]. cbn [fst snd] in H1, H2, H4, H5. subst ret.
    injection H as <- <-. split; [|auto].
    intros d' Hd'. rewrite H1. apply find_by_date_upd_other; [solve_upd_keys|exact Hd'].
  - rewrite (update_entries_absent s d f Hf) in H.
    destruct (insert_entry _ s) as [s2|err] eqn:Hi; simpl in H; [|discriminate].
    injection H as <- <-. apply insert_entry_rows in Hi as [Hi1 [Hi2 Hi3]].
    split; [|auto]. intros d' Hd'. rewrite Hi1. apply find_by_date_snoc_other. simpl. congruence.
Qed.

Lemma upsert_entry_read_after_write_witness :
  wf store_with_op /\
  exists s' e, upsert_entry store_with_op "2026-01-01" "tea" 20 "u9" = Ok (s', e) /\
    get_entry s' "2026-01-01" = Some e /\
    (forall d', d' <> "2026-01-01" -> get_entry s' d' = get_entry store_with_op d') /\
    ai_operations s' = ai_operations store_with_op /\ app_settings s' = app_settings store_with_op.
Proof.
  assert (Hwf : wf store_with_op) by exact wf_store_one.
  split; [exact Hwf|].
  destruct (upsert_entry store_with_op "2026-01-01" "tea" 20 "u9") as [[s' e]|err] eqn:Hu.
  - exists s', e. split; [reflexivity|].
    exact (upsert_entry_read_after_write store_with_op s' "2026-01-01" "tea" 20 "u9" e Hwf Hu).
  - vm_compute in Hu. discriminate.
Defined.

(** ** Search results *)






(** ** Current and longest streak *)

Lemma walk_le_scan (today : Z) (l : list Z) : forall (prev best run : Z) (R : list Z),
  strictly_increasing (prev :: l) = true -> 1 <= run ->
  (forall k, spec_current_walk prev k (prev :: R) <= k + run) ->
  spec_current_walk today 0 (prev :: R) <= Z.max best run ->
  spec_current_walk today 0 (rev l ++ prev :: R) <= spec_longest_scan prev best run l.
Proof.
  induction l as [|x l IH]; intros prev best run R Hs Hrun Ha Hb; simpl; [exact Hb|].
  change (strictly_increasing (prev :: x :: l)) with
    ((prev <? x) && strictly_increasing (x :: l)) in Hs.
  apply andb_prop in Hs as [Hpx Hs]. apply Z.ltb_lt in Hpx.
  rewrite <- app_assoc. simpl (_ ++ _).
  assert (Hx : forall k, spec_current_walk x k (x :: prev :: R) =
                         spec_current_walk (x - 1) (k + 1) (prev :: R))
    by (intros k; cbn [spec_current_walk]; now rewrite Z.eqb_refl).
  assert (Hy : forall e k, spec_current_walk e k (prev :: R) =
             if prev =? e then spec_current_walk (e - 1) (k + 1) R
             else if prev <? e then k else spec_current_walk e k R)
    by reflexivity.
  assert (Ht : spec_current_walk today 0 (x :: prev :: R) =
               if x =? today then spec_current_walk (today - 1) 1 (prev :: R)
               else if x <? today then 0 else spec_current_walk today 0 (prev :: R))
    by reflexivity.
  destruct (Z.eqb_spec x (prev + 1)) as [Hc|Hc].
  - apply IH; [exact Hs|lia| |].
    + intros k. rewrite Hx. replace (x - 1) with prev by lia. specialize (Ha (k + 1)). lia.
    + rewrite Ht. destruct (Z.eqb_spec x today) as [<-|Hxt].
      * replace (x - 1) with prev by lia. specialize (Ha 1). lia.
      * destruct (Z.ltb_spec x today); lia.
  - apply IH; [exact Hs|lia| |].
    + intros k. rewrite Hx, Hy.
      destruct (Z.eqb_spec prev (x - 1)); [lia|].
      destruct (Z.ltb_spec prev (x - 1)); lia.
    + rewrite Ht. destruct (Z.eqb_spec x today) as [<-|Hxt].
      * rewrite Hy. destruct (Z.eqb_spec prev (x - 1)); [lia|].
        destruct (Z.ltb_spec prev (x - 1)); lia.
      * destruct (Z.ltb_spec x today); lia.
Qed.

(** When the valid dates arrive in increasing order (as [ORDER BY
    entry_date ASC] delivers zero-padded dates), the current streak never
    exceeds the longest streak. *)
Theorem get_writing_stats_current_le_longest (parse_date : string -> option Z) (s : Store)
    (today : Z) :
  strictly_increasing
    (valid_dates parse_date (sort_by String.leb (map entry_date (entries s)))) = true ->
  current_streak (get_writing_stats parse_date s today) <=
  longest_streak (get_writing_stats parse_date s today).
Proof.
  intros Hs. unfold get_writing_stats. cbn [current_streak longest_streak].
  unfold calculate_current_streak, calculate_longest_streak.
  destruct (sort_by String.leb (map entry_date (entries s))) as [|d ds]; [lia|].
  rewrite current_streak_loop_valid, valid_dates_rev, longest_streak_loop_start.
  destruct (valid_dates parse_date (d :: ds)) as [|x0 rest]; [simpl; lia|].
  simpl (rev (x0 :: rest)).
  apply walk_le_scan; [exact Hs|lia| |].
  - intros k. simpl. rewrite Z.eqb_refl. lia.
  - simpl. destruct (x0 =? today); [simpl; lia|]. destruct (x0 <? today); lia.
Qed.

Lemma get_writing_stats_current_le_longest_witness :
  strictly_increasing
    (valid_dates parse_ymd (sort_by String.leb (map entry_date (entries store_search)))) = true /\
  current_streak (get_writing_stats parse_ymd store_search 20455) = 2 /\
  current_streak (get_writing_stats parse_ymd store_search 20455) <=
  longest_streak (get_writing_stats parse_ymd store_search 20455).
Proof.
  assert (Hs : strictly_increasing
    (valid_dates parse_ymd (sort_by String.leb (map entry_date (entries store_search)))) = true)
    by (vm_compute; reflexivity).
  split; [exact Hs|]. split; [vm_compute; reflexivity|].
  exact (get_writing_stats_current_le_longest parse_ymd store_search 20455 Hs).
Defined.

(** ** Migrations *)

Ltac store_proj :=
  cbn [tables entry_columns indexes triggers schema_migrations entries ai_operations
       entries_fts app_settings set_schema set_fts set_ai_operations set_entries
       create_index create_trigger] in *.

Lemma bind_ok {A B} (m : result A) (k : A -> result B) (r : B) :
  bind m k = Ok r -> exists a, m = Ok a /\ k a = Ok r.
Proof. destruct m as [a|e]; simpl; [eauto|discriminate]. Qed.

Lemma has_name_add (x y : string) (l : list string) :
  has_name x (add_name y l) = String.eqb x y || has_name x l.
Proof.
  unfold add_name, has_name. destruct (existsb (String.eqb y) l) eqn:E.
  - destruct (String.eqb_spec x y) as [->|]; [exact E|reflexivity].
  - rewrite existsb_app. simpl. rewrite orb_false_r, orb_comm. reflexivity.
Qed.

Lemma has_name_snoc (x y : string) (l : list string) :
  has_name x (l ++ [y]) = has_name x l || String.eqb x y.
Proof. unfold has_name. rewrite existsb_app. simpl. now rewrite orb_false_r. Qed.

Lemma create_schema_migrations_rows (s : Store) :
  same_rows s (create_schema_migrations s) /\
  ai_table (create_schema_migrations s) = ai_table s.
Proof.
  unfold create_schema_migrations, same_rows, ai_table.
  destruct (schema_migrations s); [auto|]. store_proj. rewrite has_name_add. auto.
Qed.

Lemma create_index_rows (n : string) (s : Store) :
  same_rows s (create_index n s) /\ tables (create_index n s) = tables s /\
  schema_migrations (create_index n s) = schema_migrations s.
Proof. unfold same_rows. store_proj. auto. Qed.

Lemma create_trigger_rows (n : string) (s : Store) :
  same_rows s (create_trigger n s) /\ tables (create_trigger n s) = tables s /\
  schema_migrations (create_trigger n s) = schema_migrations s.
Proof. unfold same_rows. store_proj. auto. Qed.

Lemma create_table_rows (t : string) (cols : list string) (s : Store) :
  same_rows s (create_table t cols s) /\
  ai_table (create_table t cols s) = ai_table s || String.eqb "ai_operations" t /\
  schema_migrations (create_table t cols s) = schema_migrations s.
Proof.
  unfold create_table, same_rows, ai_table. destruct (has_name t (tables s)) eqn:E.
  - destruct (String.eqb_spec "ai_operations" t) as [<-|]; rewrite ?E, ?orb_false_r; auto.
  - store_proj. rewrite has_name_snoc. auto.
Qed.

Lemma record_version_rows (v t : Z) (s s' : Store) :
  record_version v t s = Ok s' ->
  same_rows s s' /\ tables s' = tables s /\
  exists rows, schema_migrations s = Some rows /\ schema_migrations s' = Some (rows ++ [(v, t)]).
Proof.
  unfold record_version, same_rows. destruct (schema_migrations s) as [rows|]; [|discriminate].
  destruct (existsb _ rows); [discriminate|]. intros H. injection H as <-. store_proj. eauto 10.
Qed.

Lemma MIGRATION_001_rows (s s' : Store) :
  MIGRATION_001 s = Ok s' -> schema_migrations s <> None ->
  same_rows s s' /\ ai_table s' = ai_table s /\ schema_migrations s' = schema_migrations s.
Proof.
  unfold MIGRATION_001. intros H Hsm. injection H as <-.
  destruct (create_table_rows "entries" ["id"; "entry_date"; "content_json"; "created_at"; "updated_at"] s)
    as [[A1 [A2 [A3 A4]]] [B C]].
  unfold create_schema_migrations. store_proj.
  rewrite C. destruct (schema_migrations s); [|congruence].
  unfold same_rows, ai_table in *. store_proj. rewrite B, orb_false_r. auto.
Qed.

Lemma drop_ai_operations_rows (s : Store) :
  entries (drop_ai_operations s) = entries s /\
  ai_operations (drop_ai_operations s) = (if ai_table s then [] else ai_operations s) /\
  entries_fts (drop_ai_operations s) = entries_fts s /\
  app_settings (drop_ai_operations s) = app_settings s /\
  schema_migrations (drop_ai_operations s) = schema_migrations s.
Proof. unfold drop_ai_operations, ai_table. destruct (has_name _ _); cbn; auto. Qed.

Lemma fold_create_index_rows (l : list string) (s : Store) :
  same_rows s (fold_left (fun s i => create_index i s) l s) /\
  schema_migrations (fold_left (fun s i => create_index i s) l s) = schema_migrations s.
Proof.
  revert s. induction l as [|i l IH]; intros s; simpl; [unfold same_rows; auto|].
  destruct (IH (create_index i s)) as [[A1 [A2 [A3 A4]]] B].
  unfold same_rows in *. store_proj. rewrite A1, A2, A3, A4, B. auto.
Qed.

Lemma MIGRATION_002_rows (s s' : Store) :
  MIGRATION_002 s = Ok s' -> same_rows s s' /\ schema_migrations s' = schema_migrations s.
Proof.
  intros H.
  assert (Hs : s' = fold_left (fun s i => create_index i s) ai_operations_indexes
                      (create_table "ai_operations" [] s))
    by (unfold MIGRATION_002 in H; congruence). subst s'.
  destruct (create_table_rows "ai_operations" [] s) as [[A1 [A2 [A3 A4]]] [_ C]].
  destruct (fold_create_index_rows ai_operations_indexes (create_table "ai_operations" [] s))
    as [[B1 [B2 [B3 B4]]] D].
  unfold same_rows. rewrite B1, B2, B3, B4, D. auto.
Qed.

Lemma MIGRATION_003_rows (s s' : Store) :
  MIGRATION_003 s = Ok s' -> same_rows s s' /\ schema_migrations s' = schema_migrations s.
Proof.
  unfold MIGRATION_003. intros H. injection H as <-.
  destruct (create_table_rows "app_settings" [] s) as [[A1 [A2 [A3 A4]]] [_ C]].
  unfold same_rows. store_proj. rewrite A1, A2, A3, A4, C. auto.
Qed.

Lemma add_entries_column_rows (c : string) (s s' : Store) :
  add_entries_column c s = Ok s' -> same_rows s s' /\ schema_migrations s' = schema_migrations s.
Proof.
  unfold add_entries_column. destruct (negb _); [discriminate|]. destruct (has_name _ _); [discriminate|].
  intros H. injection H as <-. unfold same_rows. store_proj. auto.
Qed.

Lemma MIGRATION_004_rows (s s' : Store) :
  MIGRATION_004 s = Ok s' -> same_rows s s' /\ schema_migrations s' = schema_migrations s.
Proof.
  unfold MIGRATION_004. intros H.
  apply bind_ok in H as [a [Ha H]]. apply bind_ok in H as [b [Hb H]]. injection H as <-.
  apply add_entries_column_rows in Ha as [[A1 [A2 [A3 A4]]] A5].
  apply add_entries_column_rows in Hb as [[B1 [B2 [B3 B4]]] B5].
  unfold same_rows. store_proj. rewrite B1, B2, B3, B4, B5, A1, A2, A3, A4, A5. auto.
Qed.

Lemma MIGRATION_005_rows (s s' : Store) :
  MIGRATION_005 s = Ok s' ->
  entries s' = entries s /\ ai_operations s' = ai_operations s /\
  entries_fts s' = entries_fts s ++ map project (entries s) /\
  app_settings s' = app_settings s /\ schema_migrations s' = schema_migrations s.
Proof.
  unfold MIGRATION_005. intros H. injection H as <-.
  destruct (create_table_rows "entries_fts" [] s) as [[A1 [A2 [A3 A4]]] [_ C]].
  store_proj. rewrite A1, A2, A3, A4, C. auto.
Qed.

Lemma create_schema_migrations_rows_sm (s : Store) :
  schema_migrations (create_schema_migrations s) =
  Some (match schema_migrations s with Some rows => rows | None => [] end).
Proof. unfold create_schema_migrations. destruct (schema_migrations s) eqn:E; [exact E|reflexivity]. Qed.

Lemma same_rows_trans (a b c : Store) : same_rows a b -> same_rows b c -> same_rows a c.
Proof. unfold same_rows. intros [A1 [A2 [A3 A4]]] [B1 [B2 [B3 B4]]]. repeat split; congruence. Qed.

Lemma run_stage (k : Z) (f : Store -> result Store) (c : bool) (now : Z -> Z) (s0 s1 : Store) :
  (forall b, f s0 = Ok b -> same_rows s0 b /\ schema_migrations b = schema_migrations s0) ->
  (if c then s' <- f s0 ;; record_version k (now k) s' else Ok s0) = Ok s1 ->
  same_rows s0 s1 /\
  schema_migrations s1 =
    option_map (fun rows => rows ++ if c then [(k, now k)] else []) (schema_migrations s0).
Proof.
  intros Hf H. destruct c.
  - apply bind_ok in H as [a [Ha Hr]]. apply Hf in Ha as [Ha Hsm].
    apply record_version_rows in Hr as [Hr [_ [rows [E1 E2]]]].
    split; [eapply same_rows_trans; eauto|]. rewrite E2, <- Hsm, E1. reflexivity.
  - injection H as <-. split; [unfold same_rows; auto|].
    destruct (schema_migrations s0); simpl; rewrite ?app_nil_r; reflexivity.
Qed.

(** A successful [migrations::run] keeps the entries and settings rows.
    From a version below 2 it empties [ai_operations] when that table
    already exists; from a version below 5 it appends one index row per
    entry to [entries_fts].  It records, after the rows already there, each
    version above the current one with the clock read for it. *)
Theorem run_keeps_rows (s s' : Store) (now : Z -> Z) :
  run s now = Ok s' ->
  entries s' = entries s /\ app_settings s' = app_settings s /\
  ai_operations s' =
    (if (current_version (create_schema_migrations s) <? 2) &&
        has_name "ai_operations" (tables s)
     then [] else ai_operations s) /\
  entries_fts s' =
    (if current_version (create_schema_migrations s) <? 5
     then entries_fts s ++ map project (entries s) else entries_fts s) /\
  schema_migrations s' =
    Some (match schema_migrations s with Some rows => rows | None => [] end ++
          map (fun v => (v, now v))
            (filter (fun v => current_version (create_schema_migrations s) <? v)
               [1; 2; 3; 4; 5])).
Proof.
  unfold run. intros H.
  destruct (create_schema_migrations_rows s) as [R0 T0].
  pose proof (create_schema_migrations_rows_sm s) as S0.
  remember (create_schema_migrations s) as s0 eqn:Hs0.
  remember (current_version s0) as cv eqn:Hcv. clear Hs0 Hcv.
  apply bind_ok in H as [s1 [H1 H]]. apply bind_ok in H as [s2 [H2 H]].
  apply bind_ok in H as [s3 [H3 H]]. apply bind_ok in H as [s4 [H4 H]].
  apply bind_ok in H as [s5 [H5 H]]. injection H as <-.
  (* stage 1 *)
  assert (T1 : ai_table s1 = ai_table s0).
  { destruct (cv <? 1); [|congruence].
    apply bind_ok in H1 as [a [Ha Hr]].
    apply MIGRATION_001_rows in Ha as [_ [Ta _]]; [|congruence].
    apply record_version_rows in Hr as [_ [Hr _]]. unfold ai_table in *. congruence. }
  apply run_stage in H1 as [R1 S1].
  2:{ intros b Hb. apply MIGRATION_001_rows in Hb as [Hb [_ Hb']]; [auto|congruence]. }
  (* stage 2 *)
  assert (P2 : entries s2 = entries s1 /\ entries_fts s2 = entries_fts s1 /\
               app_settings s2 = app_settings s1 /\
               ai_operations s2 = (if (cv <? 2) && ai_table s1 then [] else ai_operations s1) /\
               schema_migrations s2 =
                 option_map (fun rows => rows ++ if cv <? 2 then [(2, now 2)] else [])
                   (schema_migrations s1)).
  { destruct (cv <? 2); simpl.
    - apply bind_ok in H2 as [a [Ha Hr]].
      apply MIGRATION_002_rows in Ha as [[A1 [A2 [A3 A4]]] A5].
      apply record_version_rows in Hr as [[B1 [B2 [B3 B4]]] [_ [rows [E1 E2]]]].
      destruct (drop_ai_operations_rows s1) as [D1 [D2 [D3 [D4 D5]]]].
      rewrite B1, B2, B3, B4, E2, A1, A2, A3, A4, D1, D2, D3, D4.
      rewrite <- D5, <- A5, E1. auto.
    - injection H2 as <-. destruct (schema_migrations s1); simpl; rewrite ?app_nil_r; auto. }
  destruct P2 as [P2a [P2b [P2c [P2d P2e]]]].
  apply run_stage in H3 as [R3 S3]; [|intros b Hb; now apply MIGRATION_003_rows in Hb].
  apply run_stage in H4 as [R4 S4]; [|intros b Hb; now apply MIGRATION_004_rows in Hb].
  (* stage 5 *)
  assert (P5 : entries s5 = entries s4 /\ ai_operations s5 = ai_operations s4 /\
               app_settings s5 = app_settings s4 /\
               entries_fts s5 = (if cv <? 5 then entries_fts s4 ++ map project (entries s4)
                                 else entries_fts s4) /\
               schema_migrations s5 =
                 option_map (fun rows => rows ++ if cv <? 5 then [(5, now 5)] else [])
                   (schema_migrations s4)).
  { destruct (cv <? 5).
    - apply bind_ok in H5 as [a [Ha Hr]].
      apply MIGRATION_005_rows in Ha as [A1 [A2 [A3 [A4 A5]]]].
      apply record_version_rows in Hr as [[B1 [B2 [B3 B4]]] [_ [rows [E1 E2]]]].
      rewrite B1, B2, B3, B4, E2, A1, A2, A3, A4. rewrite <- A5, E1. auto.
    - injection H5 as <-. destruct (schema_migrations s4); simpl; rewrite ?app_nil_r; auto. }
  destruct P5 as [P5a [P5b [P5c [P5d P5e]]]].
  unfold same_rows in R0, R1, R3, R4.
  destruct R0 as [R0a [R0b [R0c R0d]]]. destruct R1 as [R1a [R1b [R1c R1d]]].
  destruct R3 as [R3a [R3b [R3c R3d]]]. destruct R4 as [R4a [R4b [R4c R4d]]].
  split; [congruence|]. split; [congruence|]. split.
  { rewrite P5b, R4b, R3b, P2d, T1, T0, R1b, R0b. reflexivity. }
  split.
  { rewrite P5d, R4a, R4c, R3a, R3c, P2a, P2b, R1a, R1c, R0a, R0c. reflexivity. }
  rewrite P5e, S4, S3, P2e, S1, S0. simpl.
  destruct (cv <? 1), (cv <? 2), (cv <? 3), (cv <? 4), (cv <? 5); simpl;
    rewrite <- ?app_assoc; reflexivity.
Qed.

Lemma run_keeps_rows_witness :
  run legacy_v1 (fun v => 1000 + v) = Ok legacy_v1_migrated /\
  ai_operations legacy_v1 <> [] /\
  entries legacy_v1_migrated = entries legacy_v1 /\
  app_settings legacy_v1_migrated = app_settings legacy_v1 /\
  ai_operations legacy_v1_migrated =
    (if (current_version (create_schema_migrations legacy_v1) <? 2) &&
        has_name "ai_operations" (tables legacy_v1)
     then [] else ai_operations legacy_v1) /\
  entries_fts legacy_v1_migrated =
    (if current_version (create_schema_migrations legacy_v1) <? 5
     then entries_fts legacy_v1 ++ map project (entries legacy_v1)
     else entries_fts legacy_v1) /\
  schema_migrations legacy_v1_migrated =
    Some (match schema_migrations legacy_v1 with Some rows => rows | None => [] end ++
          map (fun v => (v, 1000 + v))
            (filter (fun v => current_version (create_schema_migrations legacy_v1) <? v)
               [1; 2; 3; 4; 5])).
Proof.
  assert (H : run legacy_v1 (fun v => 1000 + v) = Ok legacy_v1_migrated)
    by (vm_compute; reflexivity).
  split; [exact H|]. split; [discriminate|].
  exact (run_keeps_rows legacy_v1 legacy_v1_migrated (fun v => 1000 + v) H).
Defined.

(** ** Import with overwrite *)

(** Importing with [overwrite] an entry whose date exists locally rewrites
    the local row: content, mood fields and [updated_at] come from the
    bundle, id and [created_at] stay those of the local entry; the entry
    counts as imported. *)
Theorem import_overwrite_keeps_identity (s : Store) (x e : DiaryEntry) (v : string)
    (t : Z) (include_ai : bool) :
  wf s -> get_entry s (entry_date x) = Some e ->
  exists s',
    import_data s (mkExportData v t [x] []) (mkImportOptions true include_ai) = Ok (s', 1%nat) /\
    get_entry s' (entry_date x) =
      Some (mkEntry (id e) (entry_date e) (content_json x) (mood x) (mood_emoji x)
              (created_at e) (updated_at x)) /\
    ai_operations s' = ai_operations s.
Proof.
  intros Hwf Hf. unfold get_entry in *.
  set (f := fun e0 => mkEntry (id e0) (entry_date e0) (content_json x) (mood x)
                        (mood_emoji x) (created_at e0) (updated_at x)).
  destruct (update_existing_date s (entry_date x) f e ltac:(solve_upd_keys)
              ltac:(solve_upd_keys) Hwf Hf) as [_ [H2 _]].
  pose proof (update_entries_other (fun y => String.eqb (entry_date y) (entry_date x)) f s) as H3.
  unfold import_data. cbn [data_entries data_ai_operations overwrite include_ai_operations].
  simpl import_entries. rewrite Hf.
  change (fun e0 => mkEntry (id e0) (entry_date e0) (content_json x) (mood x)
                      (mood_emoji x) (created_at e0) (updated_at x)) with f.
  destruct (update_entries _ f s) as [s1 ret]. cbn [fst] in H2, H3.
  exists s1. destruct include_ai; simpl; auto.
Qed.

Lemma import_overwrite_keeps_identity_witness :
  wf store_one /\
  get_entry store_one "2026-01-01" =
    Some (mkEntry "u1" "2026-01-01" "coffee" (Some "happy") (Some "h") 10 10) /\
  exists s',
    import_data store_one
      (mkExportData "1.0" 50 [mkEntry "z9" "2026-01-01" "tea" None None 40 41] [])
      (mkImportOptions true false) = Ok (s', 1%nat) /\
    get_entry s' "2026-01-01" = Some (mkEntry "u1" "2026-01-01" "tea" None None 10 41) /\
    ai_operations s' = ai_operations store_one.
Proof.
  split; [exact wf_store_one|]. split; [reflexivity|].
  exact (import_overwrite_keeps_identity store_one
           (mkEntry "z9" "2026-01-01" "tea" None None 40 41)
           (mkEntry "u1" "2026-01-01" "coffee" (Some "happy") (Some "h") 10 10)
           "1.0" 50 false wf_store_one eq_refl).
Defined.
